(** * Evaluation utilities of the cardiac-shape VAE: [model_evaluation.py]

    A shallow embedding of the three functions of [model_evaluation.py]
    that carry semantic content:

    - [vae_loss_function]  (the objective: squared error plus analytic KL),
    - [generate_latent]    (aggregation of [mu] / [logvar] over a dataloader),
    - [calculate_losses]   (per-iteration losses, argsort, best / worst five).

    Tensors are a shape together with row-major data.  The torch and numpy
    operations the source calls ([torch.cat], broadcasting arithmetic,
    [mse_loss], [torch.sum], [.item()], iteration over a tensor,
    [np.argsort], slicing) are modelled with their failure cases as [option].
    Floating-point numbers are idealised: the objective is stated over the
    real numbers, and the ranking over any totally ordered type of losses.
    Only properties that do not rest on a law of real arithmetic that
    rounding breaks are stated; the order [np.argsort] gives to equal
    losses is left open. *)

From Stdlib Require Import List Arith ZArith Lia Bool Permutation Sorted Reals Lra.
Import ListNotations.

Set Implicit Arguments.

(** ** Tensors *)

Record tensor (A : Type) : Type := mkTensor { shape : list nat; data : list A }.

Arguments mkTensor {A} shape data.

(** Number of elements of a shape. *)
Definition numel (s : list nat) : nat := fold_right Nat.mul 1 s.

(** A tensor is well formed when it holds exactly [numel shape] elements. *)
Definition wf {A} (t : tensor A) : Prop := length (data t) = numel (shape t).

(** A Python number, or the result of a full reduction: a 0-dim tensor. *)
Definition tscalar {A} (a : A) : tensor A := mkTensor [] [a].

Definition list_nat_eqb (s1 s2 : list nat) : bool :=
  if list_eq_dec Nat.eq_dec s1 s2 then true else false.

Section TensorOps.
Variable A : Type.

(** [chunks k n d]: the first [n] consecutive blocks of [k] elements. *)
Fixpoint chunks (k n : nat) (d : list A) : list (list A) :=
  match n with
  | 0 => []
  | S n' => firstn k d :: chunks k n' (skipn k d)
  end.

(** Iterating over a tensor ([for img in batch]) yields its slices along
    dimension 0; a 0-dim tensor cannot be iterated. *)
Definition unbind (t : tensor A) : option (list (tensor A)) :=
  match shape t with
  | [] => None
  | n :: s => Some (map (mkTensor s) (chunks (numel s) n (data t)))
  end.

(** [t.item()]: defined on tensors with exactly one element. *)
Definition item (t : tensor A) : option A :=
  match data t with
  | [a] => Some a
  | _ => None
  end.

(** *** Broadcasting *)

(** One dimension of the broadcast of two shapes. *)
Definition broadcast_dim (a b : nat) : option nat :=
  if a =? b then Some a
  else if a =? 1 then Some b
  else if b =? 1 then Some a
  else None.

(** Broadcast of two shapes of the same rank. *)
Fixpoint broadcast_aligned (s1 s2 : list nat) : option (list nat) :=
  match s1, s2 with
  | [], [] => Some []
  | a :: s1', b :: s2' =>
      match broadcast_dim a b, broadcast_aligned s1' s2' with
      | Some c, Some s => Some (c :: s)
      | _, _ => None
      end
  | _, _ => None
  end.

(** Shapes are aligned on their trailing dimensions: the shorter one is
    padded with leading ones. *)
Definition pad (n : nat) (s : list nat) : list nat :=
  repeat 1 (n - length s) ++ s.

Definition broadcast_shapes (s1 s2 : list nat) : option (list nat) :=
  let n := Nat.max (length s1) (length s2) in
  broadcast_aligned (pad n s1) (pad n s2).

(** [expand from to d]: row-major data of shape [from] expanded to shape
    [to] (same rank; a dimension of size one is repeated). *)
Fixpoint expand (from to : list nat) (d : list A) : list A :=
  match from, to with
  | f :: fs, t :: ts =>
      let rows := map (expand fs ts) (chunks (numel fs) f d) in
      if f =? t then concat rows
      else concat (flat_map (fun r => repeat r t) rows)
  | _, _ => d
  end.

Definition expand_to (s : list nat) (t : tensor A) : tensor A :=
  mkTensor s (expand (pad (length s) (shape t)) s (data t)).

(** [torch.broadcast_tensors]: fails when the shapes are incompatible. *)
Definition broadcast_tensors (t1 t2 : tensor A)
  : option (tensor A * tensor A) :=
  match broadcast_shapes (shape t1) (shape t2) with
  | Some s => Some (expand_to s t1, expand_to s t2)
  | None => None
  end.

Fixpoint map2 (f : A -> A -> A) (l1 l2 : list A) : list A :=
  match l1, l2 with
  | a :: l1', b :: l2' => f a b :: map2 f l1' l2'
  | _, _ => []
  end.

(** An elementwise binary operator: operands are broadcast first. *)
Definition binop (f : A -> A -> A) (t1 t2 : tensor A) : option (tensor A) :=
  match broadcast_tensors t1 t2 with
  | Some (e1, e2) => Some (mkTensor (shape e1) (map2 f (data e1) (data e2)))
  | None => None
  end.

(** An elementwise unary operator. *)
Definition unop (f : A -> A) (t : tensor A) : tensor A :=
  mkTensor (shape t) (map f (data t)).

(** *** Concatenation *)

(** [torch.cat] ignores 1-dimensional tensors without elements. *)
Definition cat_should_skip (t : tensor A) : bool :=
  match shape t with
  | [0] => true
  | _ => false
  end.

Definition is_zero_dim (t : tensor A) : bool :=
  match shape t with
  | [] => true
  | _ => false
  end.

(** [torch.cat(ts, dim=0)]: an error on the empty list, on a 0-dim
    tensor, and when the shapes differ outside dimension 0. *)
Definition cat (ts : list (tensor A)) : option (tensor A) :=
  match ts with
  | [] => None
  | _ =>
      if existsb is_zero_dim ts then None
      else
        match filter (fun t => negb (cat_should_skip t)) ts with
        | [] => Some (mkTensor [0] [])
        | t0 :: rest =>
            let s := tl (shape t0) in
            if forallb (fun t => list_nat_eqb (tl (shape t)) s) rest
            then Some (mkTensor
                         (list_sum (map (fun t => hd 0 (shape t)) (t0 :: rest)) :: s)
                         (concat (map (@data A) (t0 :: rest))))
            else None
        end
  end.

End TensorOps.

Arguments map2 {A} f l1 l2.

(** The slices of a tensor along dimension 0, in order. *)
Definition samples {A} (t : tensor A) : list (tensor A) :=
  match unbind t with
  | Some imgs => imgs
  | None => []
  end.


(** The number of samples of a batch: the size of its dimension 0. *)
Definition batch_size {A} (t : tensor A) : nat := hd 0 (shape t).

(** ** The objective: [vae_loss_function] *)

Open Scope R_scope.

(** [torch.sum(t)]: all elements added up, as a 0-dim tensor. *)
Definition tsum (t : tensor R) : tensor R :=
  tscalar (fold_left Rplus (data t) 0).

(** [torch.nn.functional.mse_loss(input, target, reduction='sum')]: when the
    sizes differ torch only warns and broadcasts the two tensors; the
    squared differences are then summed. *)
Definition mse_loss_sum (input target : tensor R) : option (tensor R) :=
  match broadcast_tensors input target with
  | Some (i, t) =>
      Some (tsum (mkTensor (shape i) (map2 (fun a b => (a - b) ^ 2) (data i) (data t))))
  | None => None
  end.

Definition bind {X Y} (o : option X) (k : X -> option Y) : option Y :=
  match o with
  | Some x => k x
  | None => None
  end.

Notation "x <- e ;; k" := (bind e (fun x => k))
  (at level 61, e at next level, right associativity).

(** [MSE = mse_loss(recon_x, x, reduction='sum')],
    [KLD = -0.5 * torch.sum(1 + logvar - mu.pow(2) - logvar.exp())],
    [return MSE + KLD]. *)
Definition vae_loss_function (recon_x x mu logvar : tensor R)
  : option (tensor R) :=
  MSE <- mse_loss_sum recon_x x ;;
  t1 <- binop Rplus (tscalar 1) logvar ;;
  t2 <- binop Rminus t1 (unop (fun a => a ^ 2) mu) ;;
  t3 <- binop Rminus t2 (unop exp logvar) ;;
  KLD <- binop Rmult (tscalar (-0.5)) (tsum t3) ;;
  binop Rplus MSE KLD.

(** The objective as the specification writes it, on flat data. *)
Definition spec_reconstruction_term (recon original : list R) : R :=
  fold_left Rplus (map2 (fun r o => (r - o) ^ 2) recon original) 0.

Definition spec_kl_term (mu logvar : list R) : R :=
  -0.5 * fold_left Rplus
           (map2 (fun l m => 1 + l - m ^ 2 - exp l) logvar mu) 0.

Definition spec_loss (recon original mu logvar : list R) : R :=
  spec_reconstruction_term recon original + spec_kl_term mu logvar.

Close Scope R_scope.

(** ** Python slices *)

(** A slice bound [i] on a sequence of length [len]: a negative bound counts
    from the end, and the result is clamped into [0 .. len]. *)
Definition slice_bound (len : nat) (i : Z) : nat :=
  let j := if (i <? 0)%Z then (i + Z.of_nat len)%Z else i in
  Z.to_nat (Z.min (Z.max j 0) (Z.of_nat len)).

(** [l[start:stop]] with optional bounds and step one. *)
Definition slice {X} (start stop : option Z) (l : list X) : list X :=
  let len := length l in
  let lo := match start with Some i => slice_bound len i | None => 0 end in
  let hi := match stop with Some i => slice_bound len i | None => len end in
  firstn (hi - lo) (skipn lo l).

(** ** The model under evaluation *)

(** The model is an external collaborator: a train / eval flag and weights. *)
Record Model (W : Type) : Type := mkModel { training : bool; weights : W }.

Arguments mkModel {W} training weights.

(** [model.eval()] *)
Definition eval {W} (m : Model W) : Model W := mkModel false (weights m).

(** ** Ordering losses: [np.argsort] *)

Section Argsort.
Variable A : Type.
Variable leb : A -> A -> bool.

(** Indices [i] and [j] are in range and the key at [i] is at most the key
    at [j]. *)
Definition key_le (l : list A) (i j : nat) : Prop :=
  match nth_error l i, nth_error l j with
  | Some a, Some b => leb a b = true
  | _, _ => False
  end.

(** [idx] lists indices of [l] in non-decreasing order of their keys. *)
Definition sorted_by (l : list A) (idx : list nat) : Prop :=
  Sorted (key_le l) idx.

(** What [np.argsort(a)] guarantees with its default [kind='quicksort']
    (an unstable sort): the result is a permutation of [range(len(a))]
    that puts [a] in non-decreasing order.  The relative order of equal
    elements is left open. *)
Definition argsort_contract (argsort : list A -> list nat) : Prop :=
  forall l, Permutation (argsort l) (seq 0 (length l))
            /\ sorted_by l (argsort l).

(** A stable argsort: insertion, from the last index to the first, of each
    index in front of the first later index whose key is not smaller. *)
Fixpoint insert_key (p : nat * A) (ps : list (nat * A)) : list (nat * A) :=
  match ps with
  | [] => [p]
  | q :: ps' =>
      if leb (snd p) (snd q) then p :: q :: ps'
      else q :: insert_key p ps'
  end.

Definition stable_argsort (l : list A) : list nat :=
  map fst (fold_right insert_key [] (combine (seq 0 (length l)) l)).

(** Index / key pairs in non-decreasing order of key. *)
Definition sorted_pairs (ps : list (nat * A)) : Prop :=
  Sorted (fun p q => leb (snd p) (snd q) = true) ps.

(** Pairs [(i, a)] that really are entries of [l]. *)
Definition entries_of (l : list A) (ps : list (nat * A)) : Prop :=
  Forall (fun p => nth_error l (fst p) = Some (snd p)) ps.

End Argsort.

(** Losses as real numbers, ordered by [<=]. *)
Definition Rleb (a b : R) : bool := if Rle_dec a b then true else false.

(** ** [generate_latent] and [calculate_losses] *)

Section Evaluation.
Variables A W : Type.

(** [model.encoder(x)] returns [(mu, logvar)]; [model(x)] returns
    [(recon, mu, logvar)].  Both run on the current state of the model and
    hand back the state they leave it in; the calls themselves are taken to
    return.  A dataloader is the list of batches it yields, and
    [data.to(device)] does not change the values of [data]. *)
Variable encoder : Model W -> tensor A -> Model W * (tensor A * tensor A).
Variable forward
  : Model W -> tensor A -> Model W * (tensor A * tensor A * tensor A).

(** The [for data in dataloader] loop of [generate_latent]: the lists
    [mus] and [logvars] grow by one tensor per batch. *)
Fixpoint encode_loop (m : Model W) (dataloader : list (tensor A))
         (mus logvars : list (tensor A))
  : Model W * (list (tensor A) * list (tensor A)) :=
  match dataloader with
  | [] => (m, (mus, logvars))
  | data :: rest =>
      let '(m', (mu, logvar)) := encoder m data in
      encode_loop m' rest (mus ++ [mu]) (logvars ++ [logvar])
  end.

Definition generate_latent (model : Model W) (dataloader : list (tensor A))
  : Model W * option (tensor A * tensor A) :=
  let '(m, (mus, logvars)) := encode_loop (eval model) dataloader [] [] in
  (m, mus' <- cat mus ;;
      logvars' <- cat logvars ;;
      Some (mus', logvars')).

Variable loss_function
  : tensor A -> tensor A -> tensor A -> tensor A -> option (tensor A).
Variable argsort : list A -> list nat.

(** The loop of [calculate_losses]: one loss per iteration, that is, per
    batch the loader yields. *)
Fixpoint loss_loop (m : Model W) (test_loader : list (tensor A))
         (reconstruction_losses : list A)
         (originals reconstructions : list (tensor A))
  : Model W * option (list A * list (tensor A) * list (tensor A)) :=
  match test_loader with
  | [] => (m, Some (reconstruction_losses, originals, reconstructions))
  | data :: rest =>
      let '(m', (recon_batch, mu, logvar)) := forward m data in
      match bind (loss_function recon_batch data mu logvar) (@item A) with
      | Some recon_loss =>
          loss_loop m' rest (reconstruction_losses ++ [recon_loss])
                    (originals ++ [data]) (reconstructions ++ [recon_batch])
      | None => (m', None)
      end
  end.

(** [sorted_indices[:5]] and [sorted_indices[-5:]]. *)
Definition rank_losses (reconstruction_losses : list A)
  : list nat * list nat :=
  let sorted_indices := argsort reconstruction_losses in
  (slice None (Some 5%Z) sorted_indices,
   slice (Some (-5)%Z) None sorted_indices).

(** [[img for batch in batches for img in batch]] *)
Fixpoint flatten (batches : list (tensor A)) : option (list (tensor A)) :=
  match batches with
  | [] => Some []
  | batch :: rest =>
      imgs <- unbind batch ;;
      more <- flatten rest ;;
      Some (imgs ++ more)
  end.

Definition calculate_losses (model : Model W) (test_loader : list (tensor A))
  : Model W * option (list nat * list nat * list (tensor A) * list (tensor A)) :=
  let '(m, r) := loss_loop (eval model) test_loader [] [] [] in
  (m, match r with
      | Some (reconstruction_losses, originals, reconstructions) =>
          let '(best_5_indices, worst_5_indices) :=
            rank_losses reconstruction_losses in
          originals' <- flatten originals ;;
          reconstructions' <- flatten reconstructions ;;
          Some (best_5_indices, worst_5_indices, originals', reconstructions')
      | None => None
      end).

(** The loss of a batch was computed, as a tensor of one element, from the
    model's outputs on that batch. *)
Definition loss_computed (b : tensor A) (l : A) : Prop :=
  exists m t,
    loss_function (fst (fst (snd (forward m b)))) b
                  (snd (fst (snd (forward m b))))
                  (snd (snd (forward m b))) = Some t
    /\ item t = Some l.

(** [r] is the model's reconstruction of the batch [b]. *)
Definition reconstruction_of (b r : tensor A) : Prop :=
  exists m, r = fst (fst (snd (forward m b))).

End Evaluation.

(** ** The diagnostic report: [check_distribution] *)

Open Scope R_scope.




Close Scope R_scope.

(** ** A model to run the functions on *)

(** A small integer-valued model, loss and loader to run the functions on. *)
Module Toy.

Definition zeros_like (t : tensor Z) : tensor Z :=
  mkTensor (shape t) (map (fun _ => 0%Z) (data t)).

(** One latent dimension: [mu] of a sample is the sum of its pixels and
    [logvar] is zero.  The model state is not touched. *)
Definition encoder (m : Model unit) (b : tensor Z)
  : Model unit * (tensor Z * tensor Z) :=
  match shape b with
  | [] => (m, (mkTensor [0; 1] [], mkTensor [0; 1] []))
  | n :: s =>
      (m, (mkTensor [n; 1]
             (map (fun c => fold_right Z.add 0%Z c)
                  (chunks (numel s) n (data b))),
           mkTensor [n; 1] (repeat 0%Z n)))
  end.

(** The reconstruction is all zeros. *)
Definition forward (m : Model unit) (b : tensor Z)
  : Model unit * (tensor Z * tensor Z * tensor Z) :=
  let '(m', (mu, logvar)) := encoder m b in
  (m', (zeros_like b, mu, logvar)).

(** Sum of squared differences. *)
Definition loss_function (recon x mu logvar : tensor Z) : option (tensor Z) :=
  match binop (fun a b => ((a - b) * (a - b))%Z) recon x with
  | Some t => Some (tscalar (fold_left Z.add (data t) 0%Z))
  | None => None
  end.

Definition model : Model unit := mkModel true tt.

(** Two batches of two one-pixel images each. *)
Definition loader : list (tensor Z) :=
  [mkTensor [2; 1] [3; 3]%Z; mkTensor [2; 1] [0; 1]%Z].

End Toy.

(** * Properties *)

(** ** Shapes and broadcasting *)

Lemma broadcast_dim_refl (a : nat) : broadcast_dim a a = Some a.
Proof. unfold broadcast_dim. now rewrite Nat.eqb_refl. Qed.

Lemma broadcast_dim_comm (a b : nat) : broadcast_dim a b = broadcast_dim b a.
Proof.
  unfold broadcast_dim.
  destruct (Nat.eqb_spec a b), (Nat.eqb_spec b a), (Nat.eqb_spec a 1),
    (Nat.eqb_spec b 1); subst; try reflexivity; congruence.
Qed.

Lemma broadcast_dim_absorb (a b c : nat) :
  broadcast_dim a b = Some c -> broadcast_dim c a = Some c.
Proof.
  unfold broadcast_dim.
  destruct (Nat.eqb_spec a b), (Nat.eqb_spec a 1), (Nat.eqb_spec b 1);
    intros [= <-]; subst;
    repeat match goal with
      | |- context [Nat.eqb ?x ?y] => destruct (Nat.eqb_spec x y)
      end; congruence.
Qed.

Lemma broadcast_dim_one (b : nat) : broadcast_dim 1 b = Some b.
Proof.
  unfold broadcast_dim. destruct (Nat.eqb_spec 1 b); subst; reflexivity.
Qed.

Lemma broadcast_aligned_refl (s : list nat) : broadcast_aligned s s = Some s.
Proof.
  induction s as [|a s IH]; simpl; [reflexivity|].
  now rewrite broadcast_dim_refl, IH.
Qed.

Lemma broadcast_aligned_comm (s1 s2 : list nat) :
  broadcast_aligned s1 s2 = broadcast_aligned s2 s1.
Proof.
  revert s2; induction s1 as [|a s1 IH]; intros [|b s2]; simpl; try reflexivity.
  now rewrite broadcast_dim_comm, IH.
Qed.

Lemma broadcast_aligned_length (s1 s2 s : list nat) :
  broadcast_aligned s1 s2 = Some s -> length s = length s1.
Proof.
  revert s2 s; induction s1 as [|a s1 IH]; intros [|b s2] s; simpl;
    try discriminate.
  - now intros [= <-].
  - destruct (broadcast_dim a b); [|discriminate].
    destruct (broadcast_aligned s1 s2) eqn:E; [|discriminate].
    intros [= <-]. simpl. f_equal. eauto.
Qed.

Lemma broadcast_aligned_absorb (s1 s2 s : list nat) :
  broadcast_aligned s1 s2 = Some s -> broadcast_aligned s s1 = Some s.
Proof.
  revert s2 s; induction s1 as [|a s1 IH]; intros [|b s2] s; simpl;
    try discriminate.
  - now intros [= <-].
  - destruct (broadcast_dim a b) eqn:D; [|discriminate].
    destruct (broadcast_aligned s1 s2) eqn:E; [|discriminate].
    intros [= <-]. simpl.
    now rewrite (broadcast_dim_absorb _ _ D), (IH _ _ E).
Qed.

Lemma broadcast_aligned_ones (s : list nat) :
  broadcast_aligned (repeat 1 (length s)) s = Some s.
Proof.
  induction s as [|a s IH]; simpl; [reflexivity|].
  now rewrite broadcast_dim_one, IH.
Qed.

Lemma pad_length (n : nat) (s : list nat) :
  length (pad n s) = Nat.max n (length s).
Proof. unfold pad. rewrite length_app, repeat_length. lia. Qed.

Lemma pad_self (n : nat) (s : list nat) : n <= length s -> pad n s = s.
Proof.
  intros H. unfold pad. now replace (n - length s) with 0 by lia.
Qed.

Lemma broadcast_shapes_refl (s : list nat) : broadcast_shapes s s = Some s.
Proof.
  unfold broadcast_shapes. rewrite pad_self by lia.
  apply broadcast_aligned_refl.
Qed.

Lemma broadcast_shapes_comm (s1 s2 : list nat) :
  broadcast_shapes s1 s2 = broadcast_shapes s2 s1.
Proof.
  unfold broadcast_shapes. rewrite Nat.max_comm.
  apply broadcast_aligned_comm.
Qed.

Lemma broadcast_shapes_length (s1 s2 s : list nat) :
  broadcast_shapes s1 s2 = Some s ->
  length s = Nat.max (length s1) (length s2).
Proof.
  unfold broadcast_shapes. intros H.
  apply broadcast_aligned_length in H. rewrite H, pad_length. lia.
Qed.

Lemma broadcast_shapes_absorb (s1 s2 s : list nat) :
  broadcast_shapes s1 s2 = Some s -> broadcast_shapes s s1 = Some s.
Proof.
  intros H. pose proof (broadcast_shapes_length _ _ H) as L.
  unfold broadcast_shapes in *.
  replace (Nat.max (length s) (length s1)) with (length s) by lia.
  rewrite (pad_self s) by lia. rewrite L.
  eapply broadcast_aligned_absorb; eassumption.
Qed.

Lemma broadcast_shapes_scalar (s : list nat) : broadcast_shapes [] s = Some s.
Proof.
  unfold broadcast_shapes. simpl length. rewrite Nat.max_0_l.
  rewrite (pad_self (n := length s) s) by lia. unfold pad. simpl length.
  rewrite Nat.sub_0_r, app_nil_r. apply broadcast_aligned_ones.
Qed.

(** ** Row-major data *)

Section DataLemmas.
Variable A : Type.
Implicit Types d : list A.

Lemma chunks_length k n d : length (chunks k n d) = n.
Proof. revert d; induction n; intros; simpl; auto. Qed.

Lemma chunks_full k n d :
  length d = n * k -> Forall (fun c => length c = k) (chunks k n d).
Proof.
  revert d; induction n as [|n IH]; intros d H; simpl; constructor.
  - rewrite length_firstn. simpl in H. lia.
  - apply IH. rewrite length_skipn. simpl in H. lia.
Qed.

Lemma concat_chunks k n d : length d = n * k -> concat (chunks k n d) = d.
Proof.
  revert d; induction n as [|n IH]; intros d H; simpl.
  - destruct d; [reflexivity | discriminate].
  - rewrite IH; [apply firstn_skipn|].
    rewrite length_skipn. simpl in H. lia.
Qed.

Lemma chunks_app k n d d' :
  length d = k ->
  chunks k (S n) (d ++ d') = d :: chunks k n d'.
Proof.
  intros H. simpl. subst k.
  rewrite firstn_app, Nat.sub_diag, firstn_all, skipn_app, Nat.sub_diag,
    skipn_all. simpl. now rewrite app_nil_r.
Qed.

Lemma expand_same (s : list nat) d :
  length d = numel s -> expand s s d = d.
Proof.
  revert d; induction s as [|f s IH]; intros d H; simpl; [reflexivity|].
  rewrite Nat.eqb_refl. simpl in H.
  rewrite <- (concat_chunks (numel s) f d) at 2 by exact H.
  f_equal. rewrite <- (map_id (chunks (numel s) f d)) at 2.
  apply map_ext_Forall.
  eapply Forall_impl; [|apply chunks_full; exact H].
  intros c Hc. now apply IH.
Qed.

Lemma concat_repeat_repeat (a : A) k t :
  concat (repeat (repeat a k) t) = repeat a (t * k).
Proof.
  induction t as [|t IH]; simpl; [reflexivity|].
  now rewrite IH, repeat_app.
Qed.

Lemma expand_scalar (s : list nat) (a : A) :
  expand (repeat 1 (length s)) s [a] = repeat a (numel s).
Proof.
  induction s as [|t s IH]; [reflexivity|].
  change (repeat 1 (length (t :: s))) with (1 :: repeat 1 (length s)).
  cbn [expand].
  assert (N : numel (repeat 1 (length s)) = 1).
  { clear. induction s; simpl; auto. rewrite IHs. reflexivity. }
  rewrite N. cbn [chunks firstn map]. rewrite IH.
  destruct (Nat.eqb_spec 1 t) as [<-|_]; cbn [flat_map concat numel fold_right].
  - rewrite app_nil_r, Nat.mul_1_l. reflexivity.
  - rewrite app_nil_r. apply concat_repeat_repeat.
Qed.

Lemma map2_length (f : A -> A -> A) d1 d2 :
  length (map2 f d1 d2) = Nat.min (length d1) (length d2).
Proof.
  revert d2; induction d1 as [|a d1 IH]; intros [|b d2]; simpl; auto.
Qed.

Lemma map2_repeat_l (f : A -> A -> A) (a : A) d :
  map2 f (repeat a (length d)) d = map (f a) d.
Proof. induction d; simpl; congruence. Qed.

Lemma map2_map_l (f : A -> A -> A) (g : A -> A) d1 d2 :
  map2 f (map g d1) d2 = map2 (fun a b => f (g a) b) d1 d2.
Proof.
  revert d2; induction d1 as [|a d1 IH]; intros [|b d2]; simpl; auto.
  now rewrite IH.
Qed.

Lemma map2_map_r (f : A -> A -> A) (g : A -> A) d1 d2 :
  map2 f d1 (map g d2) = map2 (fun a b => f a (g b)) d1 d2.
Proof.
  revert d2; induction d1 as [|a d1 IH]; intros [|b d2]; simpl; auto.
  now rewrite IH.
Qed.

(** Combining an elementwise result once more with its first operand. *)
Lemma map2_map2_l (f g : A -> A -> A) d1 d2 :
  map2 f (map2 g d1 d2) d1 = map2 (fun a b => f (g a b) a) d1 d2.
Proof.
  revert d2; induction d1 as [|a d1 IH]; intros [|b d2]; simpl; auto.
  now rewrite IH.
Qed.

End DataLemmas.

(** ** Elementwise operators *)

Section BinopLemmas.
Variable A : Type.
Implicit Types t : tensor A.

Lemma binop_shape (f : A -> A -> A) t1 t2 t :
  binop f t1 t2 = Some t ->
  broadcast_shapes (shape t1) (shape t2) = Some (shape t).
Proof.
  unfold binop, broadcast_tensors.
  destruct (broadcast_shapes (shape t1) (shape t2)); [|discriminate].
  now intros [= <-].
Qed.

Lemma binop_none (f : A -> A -> A) t1 t2 :
  binop f t1 t2 = None <-> broadcast_shapes (shape t1) (shape t2) = None.
Proof.
  unfold binop, broadcast_tensors.
  destruct (broadcast_shapes (shape t1) (shape t2)); split;
    congruence || discriminate.
Qed.

Lemma binop_same_shape (f : A -> A -> A) t1 t2 :
  shape t1 = shape t2 -> wf t1 -> wf t2 ->
  binop f t1 t2 = Some (mkTensor (shape t1) (map2 f (data t1) (data t2))).
Proof.
  unfold wf, binop, broadcast_tensors, expand_to. intros E W1 W2.
  rewrite <- E, broadcast_shapes_refl. cbn [shape data].
  rewrite pad_self by lia.
  rewrite !expand_same by congruence. reflexivity.
Qed.

Lemma binop_scalar_l (f : A -> A -> A) (a : A) t :
  wf t ->
  binop f (tscalar a) t = Some (mkTensor (shape t) (map (f a) (data t))).
Proof.
  unfold wf, binop, broadcast_tensors, expand_to. intros Wt.
  cbn [tscalar shape data]. rewrite broadcast_shapes_scalar.
  cbn [shape data]. rewrite (pad_self (n := length (shape t)) (shape t)) by lia.
  unfold pad. cbn [length]. rewrite Nat.sub_0_r, app_nil_r.
  rewrite expand_scalar, expand_same by exact Wt.
  now rewrite <- Wt, map2_repeat_l.
Qed.

Lemma binop_scalars (f : A -> A -> A) (a b : A) :
  binop f (tscalar a) (tscalar b) = Some (tscalar (f a b)).
Proof. reflexivity. Qed.

End BinopLemmas.

(** ** The objective *)

Open Scope R_scope.

Lemma mse_loss_sum_none (input target : tensor R) :
  mse_loss_sum input target = None <->
  broadcast_shapes (shape input) (shape target) = None.
Proof.
  unfold mse_loss_sum, broadcast_tensors.
  destruct (broadcast_shapes (shape input) (shape target)); split;
    congruence || discriminate.
Qed.

Lemma mse_loss_sum_scalar (input target t : tensor R) :
  mse_loss_sum input target = Some t -> exists v, t = tscalar v.
Proof.
  unfold mse_loss_sum. destruct (broadcast_tensors input target) as [[i t']|];
    [|discriminate].
  intros [= <-]. eexists. reflexivity.
Qed.

Lemma mse_loss_sum_same_shape (input target : tensor R) :
  shape input = shape target -> wf input -> wf target ->
  mse_loss_sum input target
  = Some (tscalar (spec_reconstruction_term (data input) (data target))).
Proof.
  unfold wf, mse_loss_sum, broadcast_tensors, expand_to. intros E W1 W2.
  rewrite <- E, broadcast_shapes_refl. cbn [shape data].
  rewrite pad_self by lia.
  rewrite !expand_same by congruence. reflexivity.
Qed.

(** The part of [vae_loss_function] that computes [KLD]. *)
Lemma kld_steps (mu logvar : tensor R) (s : list nat) :
  broadcast_shapes (shape logvar) (shape mu) = Some s ->
  exists t1 t2 t3,
    binop Rplus (tscalar 1) logvar = Some t1
    /\ binop Rminus t1 (unop (fun a => a ^ 2) mu) = Some t2
    /\ binop Rminus t2 (unop exp logvar) = Some t3.
Proof.
  intros H.
  destruct (binop Rplus (tscalar 1) logvar) as [t1|] eqn:E1.
  2:{ apply binop_none in E1. cbn [tscalar shape] in E1.
      now rewrite broadcast_shapes_scalar in E1. }
  pose proof (binop_shape _ _ _ E1) as S1. cbn [tscalar shape] in S1.
  rewrite broadcast_shapes_scalar in S1. injection S1 as S1.
  destruct (binop Rminus t1 (unop (fun a => a ^ 2) mu)) as [t2|] eqn:E2.
  2:{ apply binop_none in E2. cbn [unop shape] in E2. congruence. }
  pose proof (binop_shape _ _ _ E2) as S2. cbn [unop shape] in S2.
  rewrite <- S1, H in S2. injection S2 as S2.
  destruct (binop Rminus t2 (unop exp logvar)) as [t3|] eqn:E3.
  2:{ apply binop_none in E3. cbn [unop shape] in E3.
      rewrite <- S2, (broadcast_shapes_absorb _ _ H) in E3. discriminate. }
  eauto 7.
Qed.

Lemma vae_loss_function_some (recon_x x mu logvar : tensor R) (s1 s2 : list nat) :
  broadcast_shapes (shape recon_x) (shape x) = Some s1 ->
  broadcast_shapes (shape logvar) (shape mu) = Some s2 ->
  exists v, vae_loss_function recon_x x mu logvar = Some (tscalar v).
Proof.
  intros H1 H2. unfold vae_loss_function.
  destruct (mse_loss_sum recon_x x) as [MSE|] eqn:EM.
  2:{ apply mse_loss_sum_none in EM. congruence. }
  destruct (mse_loss_sum_scalar _ _ EM) as [m ->].
  destruct (kld_steps mu logvar H2) as (t1 & t2 & t3 & K1 & K2 & K3).
  cbn [bind]. rewrite K1. cbn [bind]. rewrite K2. cbn [bind].
  rewrite K3. cbn [bind]. unfold tsum. rewrite binop_scalars. cbn [bind].
  rewrite binop_scalars. eauto.
Qed.

Lemma vae_loss_function_none_iff (recon_x x mu logvar : tensor R) :
  vae_loss_function recon_x x mu logvar = None <->
  broadcast_shapes (shape recon_x) (shape x) = None
  \/ broadcast_shapes (shape mu) (shape logvar) = None.
Proof.
  rewrite (broadcast_shapes_comm (shape mu)).
  destruct (broadcast_shapes (shape recon_x) (shape x)) as [s1|] eqn:H1.
  - destruct (broadcast_shapes (shape logvar) (shape mu)) as [s2|] eqn:H2.
    + destruct (vae_loss_function_some _ _ _ _ H1 H2) as [v ->].
      split; [discriminate | intros [?|?]; discriminate].
    + split; [auto|intros _]. unfold vae_loss_function.
      destruct (mse_loss_sum recon_x x); [|reflexivity]. cbn [bind].
      destruct (binop Rplus (tscalar 1) logvar) as [t1|] eqn:E1;
        [|reflexivity]. cbn [bind].
      pose proof (binop_shape _ _ _ E1) as S1. cbn [tscalar shape] in S1.
      rewrite broadcast_shapes_scalar in S1. injection S1 as S1.
      assert (E2 : binop Rminus t1 (unop (fun a => a ^ 2) mu) = None).
      { apply binop_none. cbn [unop shape]. congruence. }
      now rewrite E2.
  - split; [auto|intros _]. unfold vae_loss_function.
    apply mse_loss_sum_none in H1. now rewrite H1.
Qed.

Lemma vae_loss_function_same_shape (recon_x x mu logvar : tensor R) :
  wf recon_x -> wf x -> wf mu -> wf logvar ->
  shape recon_x = shape x -> shape mu = shape logvar ->
  vae_loss_function recon_x x mu logvar
  = Some (tscalar (spec_loss (data recon_x) (data x) (data mu) (data logvar))).
Proof.
  intros Wr Wx Wm Wl E1 E2. unfold vae_loss_function.
  rewrite mse_loss_sum_same_shape by assumption. cbn [bind].
  rewrite binop_scalar_l by assumption. cbn [bind].
  assert (Wsq : wf (unop (fun a => a ^ 2) mu)).
  { unfold wf, unop. cbn [shape data]. now rewrite length_map. }
  assert (Wexp : wf (unop exp logvar)).
  { unfold wf, unop. cbn [shape data]. now rewrite length_map. }
  rewrite binop_same_shape; cbn [unop shape data]; auto.
  2:{ unfold wf. cbn [shape data]. now rewrite length_map. }
  cbn [bind].
  rewrite binop_same_shape; cbn [unop shape data]; auto.
  2:{ unfold wf in *. cbn [shape data].
      rewrite map2_length, !length_map, Wm, Wl, E2. apply Nat.min_id. }
  cbn [bind]. unfold tsum. cbn [data].
  rewrite binop_scalars. cbn [bind]. rewrite binop_scalars.
  unfold spec_loss, spec_kl_term, spec_reconstruction_term.
  rewrite map2_map_l, map2_map_r, map2_map_r.
  rewrite (map2_map2_l (fun a b => a - exp b)
             (fun a b => 1 + a - b ^ 2) (data logvar) (data mu)).
  reflexivity.
Qed.

Close Scope R_scope.

(** ** Slices *)

Lemma slice_first_5 {X} (l : list X) : slice None (Some 5%Z) l = firstn 5 l.
Proof.
  unfold slice, slice_bound. cbn [Z.ltb Z.compare]. rewrite Nat.sub_0_r.
  cbn [skipn].
  destruct (le_lt_dec 5 (length l)) as [H|H].
  - f_equal. lia.
  - replace (Z.to_nat (Z.min (Z.max 5 0) (Z.of_nat (length l))))
      with (length l) by lia.
    rewrite firstn_all. symmetry. apply firstn_all2. lia.
Qed.

Lemma slice_last_5 {X} (l : list X) :
  slice (Some (-5)%Z) None l = skipn (length l - 5) l.
Proof.
  unfold slice, slice_bound. cbn [Z.ltb Z.compare].
  replace (Z.to_nat (Z.min (Z.max (-5 + Z.of_nat (length l)) 0)
                       (Z.of_nat (length l))))
    with (length l - 5) by lia.
  apply firstn_all2. rewrite length_skipn. lia.
Qed.

Lemma In_firstn {X} (n : nat) (l : list X) (x : X) :
  In x (firstn n l) -> In x l.
Proof.
  intros H. rewrite <- (firstn_skipn n l). apply in_or_app. now left.
Qed.

Lemma In_skipn {X} (n : nat) (l : list X) (x : X) :
  In x (skipn n l) -> In x l.
Proof.
  intros H. rewrite <- (firstn_skipn n l). apply in_or_app. now right.
Qed.

(** ** Argsort *)

Section ArgsortLemmas.
Variable A : Type.
Variable leb : A -> A -> bool.

Hypothesis leb_total : forall a b, leb a b = true \/ leb b a = true.

Lemma insert_key_perm p ps : Permutation (insert_key leb p ps) (p :: ps).
Proof.
  induction ps as [|q ps IH]; simpl; [reflexivity|].
  destruct (leb (snd p) (snd q)); [reflexivity|].
  rewrite IH. apply perm_swap.
Qed.

Lemma insert_key_sorted p ps :
  sorted_pairs leb ps -> sorted_pairs leb (insert_key leb p ps).
Proof.
  unfold sorted_pairs.
  induction ps as [|q ps IH]; intros H; simpl.
  - repeat constructor.
  - destruct (leb (snd p) (snd q)) eqn:E.
    + constructor; [assumption|]. constructor. exact E.
    + inversion H as [|? ? Hs Hh]; subst.
      constructor; [auto|].
      destruct ps as [|r ps]; simpl.
      * constructor. destruct (leb_total (snd p) (snd q)); congruence.
      * destruct (leb (snd p) (snd r)).
        -- constructor. destruct (leb_total (snd p) (snd q)); congruence.
        -- constructor. now inversion Hh.
Qed.

Lemma isort_perm ps : Permutation (fold_right (insert_key leb) [] ps) ps.
Proof.
  induction ps as [|p ps IH]; simpl; [reflexivity|].
  rewrite insert_key_perm. now constructor.
Qed.

Lemma isort_sorted ps : sorted_pairs leb (fold_right (insert_key leb) [] ps).
Proof.
  induction ps as [|p ps IH]; simpl; [constructor|].
  now apply insert_key_sorted.
Qed.

Lemma combine_entries (l : list A) (k : nat) (pre : list A) :
  length pre = k ->
  entries_of (pre ++ l) (combine (seq k (length l)) l).
Proof.
  revert k pre; induction l as [|a l IH]; intros k pre H; simpl;
    constructor.
  - simpl. rewrite nth_error_app2 by lia.
    now replace (k - length pre) with 0 by lia.
  - replace (pre ++ a :: l) with ((pre ++ [a]) ++ l)
      by now rewrite <- app_assoc.
    apply IH. rewrite length_app. simpl. lia.
Qed.

Lemma sorted_pairs_sorted_by (l : list A) ps :
  entries_of l ps -> sorted_pairs leb ps -> sorted_by leb l (map fst ps).
Proof.
  unfold sorted_pairs, sorted_by.
  induction ps as [|p ps IH]; intros He Hs; simpl; [constructor|].
  inversion He; subst. inversion Hs as [|? ? Hs' Hh]; subst.
  constructor; [auto|].
  destruct ps as [|q ps]; simpl; constructor.
  inversion Hh; subst. unfold key_le.
  match goal with H : Forall _ (q :: ps) |- _ => inversion H; subst end.
  now rewrite H1, H4.
Qed.

Lemma isort_contract (l : list A) ps :
  entries_of l ps ->
  Permutation (map fst ps) (seq 0 (length l)) ->
  Permutation (map fst (fold_right (insert_key leb) [] ps))
              (seq 0 (length l))
  /\ sorted_by leb l (map fst (fold_right (insert_key leb) [] ps)).
Proof.
  intros He Hp. split.
  - rewrite <- Hp. apply Permutation_map, isort_perm.
  - apply sorted_pairs_sorted_by; [|apply isort_sorted].
    unfold entries_of in *. rewrite Forall_forall in *.
    intros p Hin. apply He.
    eapply Permutation_in; [apply isort_perm | exact Hin].
Qed.

Lemma map_fst_combine_seq (l : list A) (k : nat) :
  map fst (combine (seq k (length l)) l) = seq k (length l).
Proof.
  revert k; induction l as [|a l IH]; intros k; simpl; [reflexivity|].
  now rewrite IH.
Qed.

Lemma stable_argsort_contract : argsort_contract leb (stable_argsort leb).
Proof.
  intros l. unfold stable_argsort. apply isort_contract.
  - exact (@combine_entries l 0 [] eq_refl).
  - now rewrite map_fst_combine_seq.
Qed.

(** *** What the contract determines *)

Variable argsort : list A -> list nat.
Hypothesis argsort_ok : argsort_contract leb argsort.

Lemma argsort_length (l : list A) : length (argsort l) = length l.
Proof.
  destruct (argsort_ok l) as [P _].
  apply Permutation_length in P. now rewrite length_seq in P.
Qed.

Lemma argsort_in_range (l : list A) (i : nat) :
  In i (argsort l) -> i < length l.
Proof.
  destruct (argsort_ok l) as [P _]. intros H.
  apply (Permutation_in _ P) in H. apply in_seq in H. lia.
Qed.

Lemma argsort_nil : argsort [] = [].
Proof.
  destruct (argsort_ok []) as [P _]. simpl in P.
  now apply Permutation_sym, Permutation_nil in P.
Qed.

Hypothesis leb_trans :
  forall a b c, leb a b = true -> leb b c = true -> leb a c = true.
Hypothesis leb_antisym :
  forall a b, leb a b = true -> leb b a = true -> a = b.

Lemma key_le_trans (l : list A) (i j k : nat) :
  key_le leb l i j -> key_le leb l j k -> key_le leb l i k.
Proof.
  unfold key_le.
  destruct (nth_error l i), (nth_error l j), (nth_error l k);
    try tauto; eauto.
Qed.

Lemma key_le_antisym (l : list A) (i j : nat) :
  NoDup l -> key_le leb l i j -> key_le leb l j i -> i = j.
Proof.
  unfold key_le. intros N.
  destruct (nth_error l i) as [a|] eqn:Ei; [|tauto].
  destruct (nth_error l j) as [b|] eqn:Ej; [|tauto].
  intros H1 H2. pose proof (leb_antisym H1 H2) as <-.
  rewrite NoDup_nth_error in N. apply N.
  - apply nth_error_Some. congruence.
  - congruence.
Qed.

(** With pairwise distinct keys, at most one index list is both sorted and
    a permutation of a given one. *)
Lemma sorted_perm_unique (l : list A) (idx1 idx2 : list nat) :
  NoDup l ->
  sorted_by leb l idx1 -> sorted_by leb l idx2 ->
  Permutation idx1 idx2 -> idx1 = idx2.
Proof.
  intros N S1 S2.
  assert (T : Relations_1.Transitive (key_le leb l)).
  { intros i j k. apply key_le_trans. }
  apply (Sorted_StronglySorted T) in S1, S2.
  revert idx2 S2; induction S1 as [|i r1 S1 IH F1]; intros idx2 S2 P.
  - now apply Permutation_nil in P.
  - destruct S2 as [|j r2 S2 F2].
    + now apply Permutation_sym, Permutation_nil in P.
    + assert (E : i = j).
      { destruct (Nat.eq_dec i j) as [|Hne]; [assumption|].
        assert (I1 : In i r2).
        { assert (H : In i (j :: r2))
            by (apply (Permutation_in _ P); now left).
          destruct H; [congruence|assumption]. }
        assert (I2 : In j r1).
        { assert (H : In j (i :: r1))
            by (apply (Permutation_in _ (Permutation_sym P)); now left).
          destruct H; [congruence|assumption]. }
        rewrite Forall_forall in F1, F2.
        apply key_le_antisym with (l := l); auto. }
      subst j. f_equal. apply IH; [assumption|].
      eapply Permutation_cons_inv; exact P.
Qed.

Lemma argsort_distinct_keys (l : list A) :
  NoDup l -> argsort l = stable_argsort leb l.
Proof.
  intros N.
  destruct (argsort_ok l) as [P1 S1].
  destruct (stable_argsort_contract l) as [P2 S2].
  apply (sorted_perm_unique N S1 S2).
  now rewrite P1, P2.
Qed.

End ArgsortLemmas.

(** ** Concatenation and iteration *)

Lemma list_nat_eqb_refl (s : list nat) : list_nat_eqb s s = true.
Proof.
  unfold list_nat_eqb. now destruct (list_eq_dec Nat.eq_dec s s).
Qed.

Section CatLemmas.
Variable A : Type.
Implicit Types (t : tensor A) (ts : list (tensor A)).

Lemma chunks_add k n m (x y : list A) :
  length x = n * k ->
  chunks k (n + m) (x ++ y) = chunks k n x ++ chunks k m y.
Proof.
  revert x; induction n as [|n IH]; intros x H; simpl.
  - destruct x; [reflexivity | discriminate].
  - simpl in H.
    rewrite firstn_app, skipn_app.
    replace (k - length x) with 0 by lia. simpl.
    rewrite app_nil_r. f_equal.
    apply IH. rewrite length_skipn. lia.
Qed.

Lemma chunks_concat k n (ds : list (list A)) :
  Forall (fun x => length x = n * k) ds ->
  chunks k (length ds * n) (concat ds) = concat (map (chunks k n) ds).
Proof.
  induction 1 as [|x ds Hx _ IH]; simpl; [reflexivity|].
  now rewrite chunks_add, IH.
Qed.

Lemma cat_uniform ts n d :
  ts <> [] ->
  Forall (fun t => shape t = [n; d]) ts ->
  cat ts = Some (mkTensor [length ts * n; d] (concat (map (@data A) ts))).
Proof.
  intros Hne F.
  assert (Z0 : existsb (@is_zero_dim A) ts = false).
  { clear - F. induction F as [|t ts Ht _ IH]; simpl; [reflexivity|].
    unfold is_zero_dim at 1. now rewrite Ht, IH. }
  assert (Fl : filter (fun t => negb (cat_should_skip t)) ts = ts).
  { clear - F. induction F as [|t ts Ht _ IH]; simpl; [reflexivity|].
    unfold cat_should_skip at 1. rewrite Ht, IH.
    now destruct n. }
  assert (Sm : list_sum (map (fun t => hd 0 (shape t)) ts) = length ts * n).
  { clear - F. induction F as [|t ts Ht _ IH]; simpl; [reflexivity|].
    now rewrite Ht, IH. }
  assert (Tl : forallb (fun t => list_nat_eqb (tl (shape t)) [d]) ts = true).
  { clear - F. induction F as [|t ts Ht _ IH]; cbn [forallb]; [reflexivity|].
    rewrite Ht, IH. cbn [tl]. now rewrite list_nat_eqb_refl. }
  unfold cat. destruct ts as [|t0 rest]; [congruence|].
  rewrite Z0, Fl. inversion F as [|? ? H0 _]; subst.
  rewrite H0. cbn [tl]. simpl forallb in Tl.
  apply andb_true_iff in Tl as [_ Tl]. rewrite Tl.
  now rewrite Sm.
Qed.

Lemma samples_cat_uniform ts n d :
  Forall (fun t => shape t = [n; d] /\ wf t) ts ->
  samples (mkTensor [length ts * n; d] (concat (map (@data A) ts)))
  = flat_map (@samples A) ts.
Proof.
  intros F. unfold samples at 1, unbind. cbn [shape data].
  rewrite <- (length_map (@data A) ts).
  rewrite chunks_concat with (n := n).
  - rewrite flat_map_concat_map, concat_map, !map_map. f_equal.
    apply map_ext_Forall. eapply Forall_impl; [|exact F].
    intros t [Hs _]. unfold samples, unbind. now rewrite Hs.
  - rewrite Forall_map. eapply Forall_impl; [|exact F].
    intros t [Hs Hw]. unfold wf in Hw. rewrite Hw, Hs. simpl. lia.
Qed.

Lemma samples_length t n s : shape t = n :: s -> length (samples t) = n.
Proof.
  intros H. unfold samples, unbind. rewrite H.
  now rewrite length_map, chunks_length.
Qed.

End CatLemmas.

(** ** [generate_latent] and [calculate_losses] *)

Section EvaluationLemmas.
Variables A W : Type.
Variable encoder : Model W -> tensor A -> Model W * (tensor A * tensor A).
Variable forward
  : Model W -> tensor A -> Model W * (tensor A * tensor A * tensor A).
Variable loss_function
  : tensor A -> tensor A -> tensor A -> tensor A -> option (tensor A).
Variable argsort : list A -> list nat.

Implicit Types (m : Model W) (dl : list (tensor A)).

(** The accumulators of the loop only grow at their end. *)
Lemma encode_loop_acc m dl mus logvars :
  encode_loop encoder m dl mus logvars
  = (fst (encode_loop encoder m dl [] []),
     (mus ++ fst (snd (encode_loop encoder m dl [] [])),
      logvars ++ snd (snd (encode_loop encoder m dl [] [])))).
Proof.
  revert m mus logvars; induction dl as [|b dl IH]; intros; simpl.
  - now rewrite !app_nil_r.
  - destruct (encoder m b) as [m' [mu lv]].
    rewrite IH, (IH m' [mu] [lv]). simpl. now rewrite <- !app_assoc.
Qed.

(** One [mu] and one [logvar] per batch, in iteration order. *)
Lemma encode_loop_outputs m dl :
  Forall2 (fun b mu => exists m', mu = fst (snd (encoder m' b)))
          dl (fst (snd (encode_loop encoder m dl [] [])))
  /\ Forall2 (fun b lv => exists m', lv = snd (snd (encoder m' b)))
             dl (snd (snd (encode_loop encoder m dl [] []))).
Proof.
  revert m; induction dl as [|b dl IH]; intros m; simpl.
  - split; constructor.
  - destruct (encoder m b) as [m' [mu lv]] eqn:E.
    rewrite encode_loop_acc. cbn [fst snd app].
    destruct (IH m') as [I1 I2].
    split; constructor; auto; exists m; now rewrite E.
Qed.

Lemma encode_loop_frame m dl mus logvars :
  (forall m' x, training (fst (encoder m' x)) = training m'
                /\ weights (fst (encoder m' x)) = weights m') ->
  training (fst (encode_loop encoder m dl mus logvars)) = training m
  /\ weights (fst (encode_loop encoder m dl mus logvars)) = weights m.
Proof.
  intros Hf. revert m mus logvars; induction dl as [|b dl IH]; intros; simpl.
  - auto.
  - destruct (encoder m b) as [m' [mu lv]] eqn:E.
    destruct (Hf m b) as [H1 H2]. rewrite E in H1, H2. simpl in H1, H2.
    destruct (IH m' (mus ++ [mu]) (logvars ++ [lv])) as [I1 I2].
    split; congruence.
Qed.

Lemma generate_latent_state m dl :
  fst (generate_latent encoder m dl)
  = fst (encode_loop encoder (eval m) dl [] []).
Proof.
  unfold generate_latent.
  now destruct (encode_loop encoder (eval m) dl [] []) as [m1 [mus lvs]].
Qed.

Lemma generate_latent_result m dl :
  snd (generate_latent encoder m dl)
  = (mus' <- cat (fst (snd (encode_loop encoder (eval m) dl [] []))) ;;
     logvars' <- cat (snd (snd (encode_loop encoder (eval m) dl [] []))) ;;
     Some (mus', logvars')).
Proof.
  unfold generate_latent.
  now destruct (encode_loop encoder (eval m) dl [] []) as [m1 [mus lvs]].
Qed.

(** *** The loop of [calculate_losses] *)

Lemma loss_loop_frame m dl ls os rs :
  (forall m' x, training (fst (forward m' x)) = training m'
                /\ weights (fst (forward m' x)) = weights m') ->
  training (fst (loss_loop forward loss_function m dl ls os rs)) = training m
  /\ weights (fst (loss_loop forward loss_function m dl ls os rs)) = weights m.
Proof.
  intros Hf. revert m ls os rs; induction dl as [|b dl IH]; intros; simpl.
  - auto.
  - destruct (forward m b) as [m' [[recon mu] lv]] eqn:E.
    destruct (Hf m b) as [H1 H2]. rewrite E in H1, H2. simpl in H1, H2.
    destruct (bind (loss_function recon b mu lv) (@item A)) as [l|].
    + destruct (IH m' (ls ++ [l]) (os ++ [b]) (rs ++ [recon])) as [I1 I2].
      split; congruence.
    + simpl. auto.
Qed.

(** One loss per iteration of the loader; the originals are the batches. *)
Lemma loss_loop_result m dl ls os rs m' ls' os' rs' :
  loss_loop forward loss_function m dl ls os rs = (m', Some (ls', os', rs')) ->
  exists new_ls new_rs,
    ls' = ls ++ new_ls /\ os' = os ++ dl /\ rs' = rs ++ new_rs
    /\ length new_ls = length dl /\ length new_rs = length dl.
Proof.
  revert m ls os rs; induction dl as [|b dl IH]; intros m ls os rs; simpl.
  - intros [= <- <- <- <-]. exists [], []. now rewrite !app_nil_r.
  - destruct (forward m b) as [m1 [[recon mu] lv]].
    destruct (bind (loss_function recon b mu lv) (@item A)) as [l|];
      [|discriminate].
    intros H. apply IH in H as (nl & nr & -> & -> & -> & L1 & L2).
    exists (l :: nl), (recon :: nr). rewrite <- !app_assoc. simpl.
    repeat split; congruence.
Qed.

Lemma calculate_losses_state m dl :
  fst (calculate_losses forward loss_function argsort m dl)
  = fst (loss_loop forward loss_function (eval m) dl [] [] []).
Proof.
  unfold calculate_losses.
  now destruct (loss_loop forward loss_function (eval m) dl [] [] []).
Qed.

Lemma calculate_losses_returns m dl ls os rs o r :
  snd (loss_loop forward loss_function (eval m) dl [] [] [])
  = Some (ls, os, rs) ->
  flatten os = Some o -> flatten rs = Some r ->
  snd (calculate_losses forward loss_function argsort m dl)
  = Some (fst (rank_losses argsort ls), snd (rank_losses argsort ls), o, r).
Proof.
  unfold calculate_losses. intros H Ho Hr.
  destruct (loss_loop forward loss_function (eval m) dl [] [] [])
    as [m1 res].
  simpl in H. subst res. cbn [snd].
  destruct (rank_losses argsort ls) as [best worst].
  now rewrite Ho, Hr.
Qed.

Lemma rank_losses_eq (ls : list A) :
  rank_losses argsort ls
  = (firstn 5 (argsort ls), skipn (length (argsort ls) - 5) (argsort ls)).
Proof. unfold rank_losses. now rewrite slice_first_5, slice_last_5. Qed.

End EvaluationLemmas.

(** ** Orders on losses *)

Lemma Rleb_true (a b : R) : Rleb a b = true <-> (a <= b)%R.
Proof. unfold Rleb. destruct (Rle_dec a b); split; auto; discriminate. Qed.

Lemma Rleb_total (a b : R) : Rleb a b = true \/ Rleb b a = true.
Proof. rewrite !Rleb_true. lra. Qed.

Lemma Rleb_trans (a b c : R) :
  Rleb a b = true -> Rleb b c = true -> Rleb a c = true.
Proof. rewrite !Rleb_true. lra. Qed.

Lemma Rleb_antisym (a b : R) : Rleb a b = true -> Rleb b a = true -> a = b.
Proof. rewrite !Rleb_true. lra. Qed.

Lemma Zleb_total (a b : Z) : Z.leb a b = true \/ Z.leb b a = true.
Proof. rewrite !Z.leb_le. lia. Qed.

(** * The claims *)

Open Scope R_scope.

(** C1. For a reconstruction and an original of the same shape, and [mu]
    and [logvar] of the same shape, [vae_loss_function] returns the sum
    over all elements of [(recon - x)^2] plus [-0.5] times the sum over all
    latent entries of [1 + logvar - mu^2 - exp logvar]: sums, not means. *)
Theorem vae_loss_function_formula (recon_x x mu logvar : tensor R) :
  wf recon_x -> wf x -> wf mu -> wf logvar ->
  shape recon_x = shape x -> shape mu = shape logvar ->
  vae_loss_function recon_x x mu logvar
  = Some (tscalar
            (fold_left Rplus
               (map2 (fun r o => (r - o) ^ 2) (data recon_x) (data x)) 0
             + -0.5 * fold_left Rplus
                        (map2 (fun l m => 1 + l - m ^ 2 - exp l)
                              (data logvar) (data mu)) 0)).
Proof. exact (@vae_loss_function_same_shape recon_x x mu logvar). Qed.

Lemma vae_loss_function_formula_witness :
  vae_loss_function (mkTensor [1; 2]%nat [1; 2]) (mkTensor [1; 2]%nat [0; 4])
                    (mkTensor [1; 1]%nat [3]) (mkTensor [1; 1]%nat [0])
  = Some (tscalar
            (fold_left Rplus
               (map2 (fun r o => (r - o) ^ 2) [1; 2] [0; 4]) 0
             + -0.5 * fold_left Rplus
                        (map2 (fun l m => 1 + l - m ^ 2 - exp l) [0] [3]) 0)).
Proof.
  apply (@vae_loss_function_formula
           (mkTensor [1; 2]%nat [1; 2]) (mkTensor [1; 2]%nat [0; 4])
           (mkTensor [1; 1]%nat [3]) (mkTensor [1; 1]%nat [0])); reflexivity.
Defined.

(** C4, as the code has it.  [vae_loss_function] fails exactly when the
    shapes of [recon_x] and [x], or those of [mu] and [logvar], cannot be
    broadcast together; shapes that differ but are broadcast-compatible are
    broadcast and a loss is returned; with matching shapes it never fails. *)
Theorem vae_loss_function_fails_iff (recon_x x mu logvar : tensor R) :
  (vae_loss_function recon_x x mu logvar = None <->
   broadcast_shapes (shape recon_x) (shape x) = None
   \/ broadcast_shapes (shape mu) (shape logvar) = None)
  /\ (shape recon_x = shape x /\ shape mu = shape logvar ->
      vae_loss_function recon_x x mu logvar <> None).
Proof.
  split; [apply vae_loss_function_none_iff|].
  intros [E1 E2]. rewrite vae_loss_function_none_iff, E1, E2.
  rewrite !broadcast_shapes_refl. intros [H|H]; discriminate.
Qed.

(** C4 as stated does not hold: a reconstruction of shape [[1]] against an
    original of shape [[2]], and a [mu] of shape [[2]] against a [logvar] of
    shape [[1]], are mismatched, yet a loss is returned. *)
Lemma vae_loss_function_mismatch_broadcast :
  let recon_x := mkTensor [1]%nat [0] in
  let x := mkTensor [2]%nat [1; 2] in
  let mu := mkTensor [2]%nat [0; 0] in
  let logvar := mkTensor [1]%nat [0] in
  shape recon_x <> shape x
  /\ shape mu <> shape logvar
  /\ vae_loss_function recon_x x mu logvar <> None.
Proof.
  cbv zeta. cbn [shape]. split; [discriminate|]. split; [discriminate|].
  rewrite vae_loss_function_none_iff. cbn [shape].
  intros [H|H]; vm_compute in H; discriminate.
Qed.

Close Scope R_scope.

(** ** Aggregation of the latent parameters *)

(** C3, as the code has it.  On a dataloader that yields no batch the lists
    [mus] and [logvars] stay empty and [torch.cat] rejects an empty list:
    the call fails (after switching the model to evaluation mode) and
    returns no sequences. *)
Theorem generate_latent_empty_loader
  (A W : Type)
  (encoder : Model W -> tensor A -> Model W * (tensor A * tensor A))
  (model : Model W) :
  generate_latent encoder model [] = (eval model, None).
Proof. reflexivity. Qed.

(** C3 as stated does not hold: on the empty dataloader no pair of
    sequences is returned. *)
Lemma generate_latent_empty_loader_no_result :
  ~ exists mus logvars,
      snd (generate_latent Toy.encoder Toy.model []) = Some (mus, logvars).
Proof. intros (mus & logvars & H). discriminate H. Qed.

Lemma Forall2_Forall_r {X Y} (R : X -> Y -> Prop) (P : X -> Prop)
      (Q : Y -> Prop) (l : list X) (l' : list Y) :
  (forall a b, P a -> R a b -> Q b) ->
  Forall2 R l l' -> Forall P l -> Forall Q l'.
Proof.
  intros H F2. induction F2; intros F; inversion F; subst; constructor; eauto.
Qed.

(** C6. For a dataloader of [B >= 1] batches of [S] samples each, and an
    encoder that maps a batch of [n] samples to [mu] and [logvar] of shape
    [[n; d]], [generate_latent] returns [mu] and [logvar] sequences of
    [B * S] rows: the rows of the first batch's output, then those of the
    second, and so on, where the j-th output is the encoder's on batch j. *)
Theorem generate_latent_batch_order
  (A W : Type)
  (encoder : Model W -> tensor A -> Model W * (tensor A * tensor A))
  (model : Model W) (dataloader : list (tensor A)) (S d : nat) :
  dataloader <> [] ->
  Forall (fun b => exists s, shape b = S :: s) dataloader ->
  (forall m b n s,
      shape b = n :: s ->
      (shape (fst (snd (encoder m b))) = [n; d] /\ wf (fst (snd (encoder m b))))
      /\ (shape (snd (snd (encoder m b))) = [n; d]
          /\ wf (snd (snd (encoder m b))))) ->
  let outputs := snd (encode_loop encoder (eval model) dataloader [] []) in
  Forall2 (fun b mu => exists m, mu = fst (snd (encoder m b)))
          dataloader (fst outputs)
  /\ Forall2 (fun b lv => exists m, lv = snd (snd (encoder m b)))
             dataloader (snd outputs)
  /\ exists mus logvars,
      snd (generate_latent encoder model dataloader) = Some (mus, logvars)
      /\ length (samples mus) = length dataloader * S
      /\ length (samples logvars) = length dataloader * S
      /\ samples mus = flat_map (@samples A) (fst outputs)
      /\ samples logvars = flat_map (@samples A) (snd outputs).
Proof.
  intros Hne Hb He outputs.
  destruct (encode_loop_outputs encoder (eval model) dataloader) as [O1 O2].
  fold outputs in O1, O2.
  assert (F1 : Forall (fun t => shape t = [S; d] /\ wf t) (fst outputs)).
  { eapply Forall2_Forall_r; [|exact O1|exact Hb].
    intros b mu [s Hs] [m ->]. apply (He m b S s Hs). }
  assert (F2 : Forall (fun t => shape t = [S; d] /\ wf t) (snd outputs)).
  { eapply Forall2_Forall_r; [|exact O2|exact Hb].
    intros b lv [s Hs] [m ->]. apply (He m b S s Hs). }
  pose proof (Forall2_length O1) as L1.
  pose proof (Forall2_length O2) as L2.
  assert (N1 : fst outputs <> []).
  { intros E. rewrite E in L1. destruct dataloader; [congruence|discriminate]. }
  assert (N2 : snd outputs <> []).
  { intros E. rewrite E in L2. destruct dataloader; [congruence|discriminate]. }
  split; [exact O1|]. split; [exact O2|].
  exists (mkTensor [length (fst outputs) * S; d]
                   (concat (map (@data A) (fst outputs)))),
         (mkTensor [length (snd outputs) * S; d]
                   (concat (map (@data A) (snd outputs)))).
  split; [|repeat split].
  - rewrite generate_latent_result. fold outputs.
    rewrite (@cat_uniform A (fst outputs) S d N1),
      (@cat_uniform A (snd outputs) S d N2); [reflexivity| |];
      (eapply Forall_impl; [|eassumption]); now intros t [? _].
  - rewrite L1. now apply samples_length with (s := [d]).
  - rewrite L2. now apply samples_length with (s := [d]).
  - now apply samples_cat_uniform.
  - now apply samples_cat_uniform.
Qed.

Lemma toy_encoder_shapes (m : Model unit) (b : tensor Z) (n : nat)
      (s : list nat) :
  shape b = n :: s ->
  (shape (fst (snd (Toy.encoder m b))) = [n; 1]
   /\ wf (fst (snd (Toy.encoder m b))))
  /\ (shape (snd (snd (Toy.encoder m b))) = [n; 1]
      /\ wf (snd (snd (Toy.encoder m b)))).
Proof.
  intros H. unfold Toy.encoder, wf. rewrite H. cbn [fst snd shape data numel
    fold_right]. rewrite length_map, chunks_length, repeat_length.
  repeat split; lia.
Qed.

Lemma generate_latent_batch_order_witness :
  let outputs := snd (encode_loop Toy.encoder (eval Toy.model) Toy.loader [] []) in
  Forall2 (fun b mu => exists m, mu = fst (snd (Toy.encoder m b)))
          Toy.loader (fst outputs)
  /\ Forall2 (fun b lv => exists m, lv = snd (snd (Toy.encoder m b)))
             Toy.loader (snd outputs)
  /\ exists mus logvars,
      snd (generate_latent Toy.encoder Toy.model Toy.loader)
      = Some (mus, logvars)
      /\ length (samples mus) = length Toy.loader * 2
      /\ length (samples logvars) = length Toy.loader * 2
      /\ samples mus = flat_map (@samples Z) (fst outputs)
      /\ samples logvars = flat_map (@samples Z) (snd outputs).
Proof.
  apply (@generate_latent_batch_order Z unit Toy.encoder Toy.model Toy.loader
           2 1).
  - discriminate.
  - repeat constructor; eexists; reflexivity.
  - apply toy_encoder_shapes.
Defined.

(** ** Ranking *)

(** C2, on the code.  The loop takes one loss per batch, not per image:
    on two batches of two images the loss list is [[18; 1]], the indices
    returned are [[1; 0]], and they are returned next to four flattened
    originals.  Index [1] of the loss list is the second batch, while
    [originals[1]] is the second image of the first batch. *)
Theorem calculate_losses_one_loss_per_batch :
  snd (loss_loop Toy.forward Toy.loss_function (eval Toy.model)
                 Toy.loader [] [] [])
  = Some ([18; 1]%Z, Toy.loader,
          [mkTensor [2; 1] [0; 0]%Z; mkTensor [2; 1] [0; 0]%Z])
  /\ snd (calculate_losses Toy.forward Toy.loss_function
                           (stable_argsort Z.leb) Toy.model Toy.loader)
     = Some ([1; 0], [1; 0],
             [mkTensor [1] [3]%Z; mkTensor [1] [3]%Z;
              mkTensor [1] [0]%Z; mkTensor [1] [1]%Z],
             [mkTensor [1] [0]%Z; mkTensor [1] [0]%Z;
              mkTensor [1] [0]%Z; mkTensor [1] [0]%Z]).
Proof. split; vm_compute; reflexivity. Qed.

(** C8, as the code has it.  On an empty test set the loss list is empty,
    its argsort is empty, both slices are empty and so are the flattened
    lists: the call returns four empty results and does not fail. *)
Theorem calculate_losses_empty_loader
  (A W : Type) (leb : A -> A -> bool)
  (forward : Model W -> tensor A -> Model W * (tensor A * tensor A * tensor A))
  (loss_function
    : tensor A -> tensor A -> tensor A -> tensor A -> option (tensor A))
  (argsort : list A -> list nat) (model : Model W) :
  argsort_contract leb argsort ->
  calculate_losses forward loss_function argsort model []
  = (eval model, Some ([], [], [], [])).
Proof.
  intros H. unfold calculate_losses, rank_losses. cbn [loss_loop].
  now rewrite (argsort_nil H).
Qed.

Lemma calculate_losses_empty_loader_witness :
  calculate_losses Toy.forward Toy.loss_function (stable_argsort Z.leb)
                   Toy.model []
  = (eval Toy.model, Some ([], [], [], [])).
Proof.
  apply (@calculate_losses_empty_loader Z unit Z.leb).
  apply stable_argsort_contract, Zleb_total.
Defined.

(** C8 as stated does not hold: the call on an empty test set does not
    fail. *)
Lemma calculate_losses_empty_loader_returns :
  snd (calculate_losses Toy.forward Toy.loss_function (stable_argsort Z.leb)
                        Toy.model [])
  <> None.
Proof. vm_compute. discriminate. Qed.

(** C9. For a loss list of length [N] with [1 <= N < 5], the two slices are
    defined and hold [min 5 N] indices each, all of them below [N]. *)
Theorem rank_losses_short_list
  (A : Type) (leb : A -> A -> bool) (argsort : list A -> list nat)
  (reconstruction_losses : list A) :
  argsort_contract leb argsort ->
  1 <= length reconstruction_losses < 5 ->
  let N := length reconstruction_losses in
  let best_5_indices := fst (rank_losses argsort reconstruction_losses) in
  let worst_5_indices := snd (rank_losses argsort reconstruction_losses) in
  length best_5_indices = Nat.min 5 N
  /\ length worst_5_indices = Nat.min 5 N
  /\ Forall (fun i => i < N) best_5_indices
  /\ Forall (fun i => i < N) worst_5_indices.
Proof.
  intros H HN N best worst. subst best worst.
  rewrite rank_losses_eq. cbn [fst snd].
  pose proof (argsort_length H reconstruction_losses) as L.
  rewrite length_firstn, length_skipn, L. fold N.
  repeat split; try lia; apply Forall_forall; intros i Hi;
    apply (argsort_in_range H).
  - eapply In_firstn; exact Hi.
  - eapply In_skipn; exact Hi.
Qed.

Lemma rank_losses_short_list_witness :
  let N := length [7; 2; 9]%Z in
  let best_5_indices := fst (rank_losses (stable_argsort Z.leb) [7; 2; 9]%Z) in
  let worst_5_indices := snd (rank_losses (stable_argsort Z.leb) [7; 2; 9]%Z) in
  length best_5_indices = Nat.min 5 N
  /\ length worst_5_indices = Nat.min 5 N
  /\ Forall (fun i => i < N) best_5_indices
  /\ Forall (fun i => i < N) worst_5_indices.
Proof.
  apply (@rank_losses_short_list Z Z.leb (stable_argsort Z.leb) [7; 2; 9]%Z).
  - apply stable_argsort_contract, Zleb_total.
  - simpl. lia.
Defined.

(** The ascending order of [[5; 1; 4; 2; 3]] is [[1; 3; 4; 2; 0]], whatever
    argsort meets the contract: the five losses are pairwise distinct. *)
Lemma argsort_example (argsort : list R -> list nat) :
  argsort_contract Rleb argsort ->
  argsort [5; 1; 4; 2; 3]%R = [1; 3; 4; 2; 0].
Proof.
  intros H. destruct (H [5; 1; 4; 2; 3]%R) as [P S].
  apply (@sorted_perm_unique R Rleb Rleb_trans Rleb_antisym
           [5; 1; 4; 2; 3]%R); [| exact S | |].
  - repeat constructor; simpl; intros F;
      repeat (destruct F as [F|F]; [lra|]); exact F.
  - repeat constructor; unfold key_le; cbn [nth_error]; apply Rleb_true; lra.
  - rewrite P.
    destruct (@stable_argsort_contract Z Z.leb Zleb_total [5; 1; 4; 2; 3]%Z)
      as [PZ _].
    symmetry. exact PZ.
Qed.

(** The best five are the first five and the worst five the last five
    indices of [np.argsort]'s result, a permutation of the indices in
    non-decreasing order of loss.  When the losses are pairwise distinct
    that order is unique, so the result is that of the stable ascending
    sort whatever argsort is used; for [[5; 1; 4; 2; 3]] both lists are
    [[1; 3; 4; 2; 0]]. *)
Theorem rank_losses_ascending
  (argsort : list R -> list nat) (reconstruction_losses : list R) :
  argsort_contract Rleb argsort ->
  (exists sorted_indices,
      Permutation sorted_indices (seq 0 (length reconstruction_losses))
      /\ sorted_by Rleb reconstruction_losses sorted_indices
      /\ rank_losses argsort reconstruction_losses
         = (firstn 5 sorted_indices,
            skipn (length reconstruction_losses - 5) sorted_indices))
  /\ (NoDup reconstruction_losses ->
      rank_losses argsort reconstruction_losses
      = (firstn 5 (stable_argsort Rleb reconstruction_losses),
         skipn (length reconstruction_losses - 5)
               (stable_argsort Rleb reconstruction_losses)))
  /\ rank_losses argsort [5; 1; 4; 2; 3]%R = ([1; 3; 4; 2; 0], [1; 3; 4; 2; 0]).
Proof.
  intros H. split; [|split].
  - exists (argsort reconstruction_losses).
    destruct (H reconstruction_losses) as [P S].
    repeat split; try assumption.
    now rewrite rank_losses_eq, (argsort_length H).
  - intros N. rewrite rank_losses_eq, (argsort_length H).
    now rewrite (argsort_distinct_keys Rleb_total H Rleb_trans Rleb_antisym N).
  - rewrite rank_losses_eq, (argsort_example H). reflexivity.
Qed.

Lemma rank_losses_ascending_witness :
  (exists sorted_indices,
      Permutation sorted_indices (seq 0 (length [5; 1; 4; 2; 3]%R))
      /\ sorted_by Rleb [5; 1; 4; 2; 3]%R sorted_indices
      /\ rank_losses (stable_argsort Rleb) [5; 1; 4; 2; 3]%R
         = (firstn 5 sorted_indices,
            skipn (length [5; 1; 4; 2; 3]%R - 5) sorted_indices))
  /\ (NoDup [5; 1; 4; 2; 3]%R ->
      rank_losses (stable_argsort Rleb) [5; 1; 4; 2; 3]%R
      = (firstn 5 (stable_argsort Rleb [5; 1; 4; 2; 3]%R),
         skipn (length [5; 1; 4; 2; 3]%R - 5)
               (stable_argsort Rleb [5; 1; 4; 2; 3]%R)))
  /\ rank_losses (stable_argsort Rleb) [5; 1; 4; 2; 3]%R
     = ([1; 3; 4; 2; 0], [1; 3; 4; 2; 0]).
Proof.
  apply (@rank_losses_ascending (stable_argsort Rleb) [5; 1; 4; 2; 3]%R).
  apply stable_argsort_contract, Rleb_total.
Defined.

(** ** The model's mode and weights *)

(** C10. Provided a forward pass itself leaves the mode flag and the
    weights alone, after [generate_latent] and after [calculate_losses]
    the model is in evaluation mode whatever its mode was before (the
    earlier mode is not put back), and its weights are those it had. *)
Theorem evaluation_mode_after_call
  (A W : Type)
  (encoder : Model W -> tensor A -> Model W * (tensor A * tensor A))
  (forward : Model W -> tensor A -> Model W * (tensor A * tensor A * tensor A))
  (loss_function
    : tensor A -> tensor A -> tensor A -> tensor A -> option (tensor A))
  (argsort : list A -> list nat)
  (model : Model W) (dataloader : list (tensor A)) :
  (forall m x, training (fst (encoder m x)) = training m
               /\ weights (fst (encoder m x)) = weights m) ->
  (forall m x, training (fst (forward m x)) = training m
               /\ weights (fst (forward m x)) = weights m) ->
  (training (fst (generate_latent encoder model dataloader)) = false
   /\ weights (fst (generate_latent encoder model dataloader)) = weights model)
  /\ (training (fst (calculate_losses forward loss_function argsort
                                      model dataloader)) = false
      /\ weights (fst (calculate_losses forward loss_function argsort
                                        model dataloader)) = weights model).
Proof.
  intros He Hf. split.
  - rewrite generate_latent_state.
    apply (encode_loop_frame encoder (eval model) dataloader [] [] He).
  - rewrite calculate_losses_state.
    apply (loss_loop_frame forward loss_function (eval model) dataloader
             [] [] [] Hf).
Qed.

Lemma toy_encoder_frame (m : Model unit) (x : tensor Z) :
  training (fst (Toy.encoder m x)) = training m
  /\ weights (fst (Toy.encoder m x)) = weights m.
Proof. unfold Toy.encoder. destruct (shape x); simpl; auto. Qed.

Lemma toy_forward_frame (m : Model unit) (x : tensor Z) :
  training (fst (Toy.forward m x)) = training m
  /\ weights (fst (Toy.forward m x)) = weights m.
Proof.
  unfold Toy.forward, Toy.encoder. destruct (shape x); simpl; auto.
Qed.

Lemma evaluation_mode_after_call_witness :
  training Toy.model = true
  /\ (training (fst (generate_latent Toy.encoder Toy.model Toy.loader)) = false
      /\ weights (fst (generate_latent Toy.encoder Toy.model Toy.loader))
         = weights Toy.model)
  /\ (training (fst (calculate_losses Toy.forward Toy.loss_function
                                      (stable_argsort Z.leb)
                                      Toy.model Toy.loader)) = false
      /\ weights (fst (calculate_losses Toy.forward Toy.loss_function
                                        (stable_argsort Z.leb)
                                        Toy.model Toy.loader))
         = weights Toy.model).
Proof.
  split; [reflexivity|].
  apply (@evaluation_mode_after_call Z unit Toy.encoder Toy.forward
           Toy.loss_function (stable_argsort Z.leb) Toy.model Toy.loader).
  - apply toy_encoder_frame.
  - apply toy_forward_frame.
Defined.

(** * Further properties of the code *)

(** ** Sums of real numbers *)

Open Scope R_scope.

Lemma fold_left_Rplus_acc (l : list R) (a : R) :
  fold_left Rplus l a = a + fold_left Rplus l 0.
Proof.
  revert a; induction l as [|b l IH]; intros a; simpl; [lra|].
  rewrite IH, (IH (0 + b)). lra.
Qed.

Lemma fold_left_Rplus_cons (a : R) (l : list R) :
  fold_left Rplus (a :: l) 0 = a + fold_left Rplus l 0.
Proof. simpl. rewrite fold_left_Rplus_acc. lra. Qed.

Lemma fold_left_Rplus_zero (l : list R) :
  Forall (fun a => a = 0) l -> fold_left Rplus l 0 = 0.
Proof.
  induction 1 as [|a l Ha _ IH]; [reflexivity|].
  rewrite fold_left_Rplus_cons, IH, Ha. lra.
Qed.

Lemma map2_ext {X} (f g : X -> X -> X) (l1 l2 : list X) :
  (forall a b, f a b = g a b) -> map2 f l1 l2 = map2 g l1 l2.
Proof.
  intros H. revert l2; induction l1 as [|a l1 IH]; intros [|b l2]; simpl;
    try reflexivity.
  now rewrite H, IH.
Qed.

Lemma map2_flip {X} (f : X -> X -> X) (l1 l2 : list X) :
  map2 f l1 l2 = map2 (fun a b => f b a) l2 l1.
Proof.
  revert l2; induction l1 as [|a l1 IH]; intros [|b l2]; simpl;
    try reflexivity.
  now rewrite IH.
Qed.

Close Scope R_scope.

(** ** More on the objective *)

Open Scope R_scope.

(** Whenever [vae_loss_function] returns, whatever the shapes of its
    arguments, the result is a 0-dim tensor with one element, so that
    [.item()] (as [calculate_losses] calls it) is defined on it. *)
Theorem vae_loss_function_scalar (recon_x x mu logvar t : tensor R) :
  vae_loss_function recon_x x mu logvar = Some t ->
  shape t = [] /\ exists v, item t = Some v /\ t = tscalar v.
Proof.
  intros H.
  destruct (broadcast_shapes (shape recon_x) (shape x)) as [s1|] eqn:B1.
  2:{ assert (N : vae_loss_function recon_x x mu logvar = None)
        by (apply vae_loss_function_none_iff; now left).
      congruence. }
  destruct (broadcast_shapes (shape logvar) (shape mu)) as [s2|] eqn:B2.
  2:{ assert (N : vae_loss_function recon_x x mu logvar = None)
        by (apply vae_loss_function_none_iff; right;
            now rewrite broadcast_shapes_comm).
      congruence. }
  destruct (vae_loss_function_some _ _ _ _ B1 B2) as [v Hv].
  rewrite Hv in H. injection H as <-.
  split; [reflexivity|]. exists v. split; reflexivity.
Qed.

Lemma vae_loss_function_scalar_witness :
  let t := tscalar (spec_loss [1; 2] [0; 4] [3] [0]) in
  shape t = [] /\ exists v, item t = Some v /\ t = tscalar v.
Proof.
  apply (@vae_loss_function_scalar
           (mkTensor [1; 2]%nat [1; 2]) (mkTensor [1; 2]%nat [0; 4])
           (mkTensor [1; 1]%nat [3]) (mkTensor [1; 1]%nat [0])).
  apply vae_loss_function_same_shape; reflexivity.
Defined.

Lemma mse_loss_sum_sym (input target : tensor R) :
  mse_loss_sum input target = mse_loss_sum target input.
Proof.
  unfold mse_loss_sum, broadcast_tensors.
  rewrite (broadcast_shapes_comm (shape target)).
  destruct (broadcast_shapes (shape input) (shape target)) as [s|];
    [|reflexivity].
  unfold tsum, expand_to. cbn [shape data]. do 3 f_equal.
  rewrite map2_flip. apply map2_ext. intros a b. ring.
Qed.

(** The loss does not change when the reconstruction and the original are
    exchanged, for all shapes (failure included). *)
Theorem vae_loss_function_sym (recon_x x mu logvar : tensor R) :
  vae_loss_function recon_x x mu logvar = vae_loss_function x recon_x mu logvar.
Proof. unfold vae_loss_function. now rewrite mse_loss_sum_sym. Qed.

Lemma kl_summands_zero (mu logvar : list R) :
  Forall (fun m => m = 0) mu -> Forall (fun l => l = 0) logvar ->
  Forall (fun a => a = 0) (map2 (fun l m => 1 + l - m ^ 2 - exp l) logvar mu).
Proof.
  intros Hm Hl. revert mu Hm.
  induction Hl as [|l logvar El _ IH]; intros mu Hm; [constructor|].
  destruct Hm as [|m mu Em Hm]; simpl; constructor; auto.
  subst. rewrite exp_0. lra.
Qed.

(** With all-zero [mu] and [logvar] (the posterior is the standard normal)
    the KL term vanishes: the loss is the summed squared error alone. *)
Theorem vae_loss_function_standard_normal (recon_x x mu logvar : tensor R) :
  wf recon_x -> wf x -> wf mu -> wf logvar ->
  shape recon_x = shape x -> shape mu = shape logvar ->
  Forall (fun m => m = 0) (data mu) ->
  Forall (fun l => l = 0) (data logvar) ->
  vae_loss_function recon_x x mu logvar
  = Some (tscalar (fold_left Rplus
                     (map2 (fun r o => (r - o) ^ 2) (data recon_x) (data x))
                     0)).
Proof.
  intros Wr Wx Wm Wl E1 E2 Hm Hl.
  rewrite vae_loss_function_same_shape by assumption.
  do 2 f_equal. unfold spec_loss, spec_kl_term, spec_reconstruction_term.
  rewrite (fold_left_Rplus_zero (kl_summands_zero Hm Hl)). lra.
Qed.

Lemma vae_loss_function_standard_normal_witness :
  vae_loss_function (mkTensor [2]%nat [1; 2]) (mkTensor [2]%nat [0; 4])
                    (mkTensor [1; 2]%nat [0; 0]) (mkTensor [1; 2]%nat [0; 0])
  = Some (tscalar (fold_left Rplus
                     (map2 (fun r o => (r - o) ^ 2) [1; 2] [0; 4]) 0)).
Proof.
  apply (@vae_loss_function_standard_normal
           (mkTensor [2]%nat [1; 2]) (mkTensor [2]%nat [0; 4])
           (mkTensor [1; 2]%nat [0; 0]) (mkTensor [1; 2]%nat [0; 0]));
    try reflexivity; repeat constructor.
Defined.

Lemma sq_diff_same_zero (d : list R) :
  Forall (fun a => a = 0) (map2 (fun r o => (r - o) ^ 2) d d).
Proof. induction d as [|a d IH]; simpl; constructor; [ring | exact IH]. Qed.

(** When the reconstruction equals the original the squared-error term
    vanishes: the loss is the KL term alone. *)
Theorem vae_loss_function_perfect_reconstruction
  (recon_x x mu logvar : tensor R) :
  wf recon_x -> wf x -> wf mu -> wf logvar ->
  shape recon_x = shape x -> shape mu = shape logvar ->
  data recon_x = data x ->
  vae_loss_function recon_x x mu logvar
  = Some (tscalar (-0.5 * fold_left Rplus
                            (map2 (fun l m => 1 + l - m ^ 2 - exp l)
                                  (data logvar) (data mu)) 0)).
Proof.
  intros Wr Wx Wm Wl E1 E2 Ed.
  rewrite vae_loss_function_same_shape by assumption.
  do 2 f_equal. unfold spec_loss, spec_kl_term, spec_reconstruction_term.
  rewrite Ed, (fold_left_Rplus_zero (sq_diff_same_zero (data x))). lra.
Qed.

Lemma vae_loss_function_perfect_reconstruction_witness :
  vae_loss_function (mkTensor [2]%nat [1; 2]) (mkTensor [2]%nat [1; 2])
                    (mkTensor [1]%nat [3]) (mkTensor [1]%nat [-1])
  = Some (tscalar (-0.5 * fold_left Rplus
                            (map2 (fun l m => 1 + l - m ^ 2 - exp l)
                                  [-1] [3]) 0)).
Proof.
  apply (@vae_loss_function_perfect_reconstruction
           (mkTensor [2]%nat [1; 2]) (mkTensor [2]%nat [1; 2])
           (mkTensor [1]%nat [3]) (mkTensor [1]%nat [-1])); reflexivity.
Defined.

Close Scope R_scope.

(** ** More on [generate_latent] *)

Section RaggedCat.
Variable A : Type.
Variable d : nat.
Implicit Types (t : tensor A) (ts : list (tensor A)).

Lemma cat_rows ts :
  ts <> [] ->
  Forall (fun t => exists n, shape t = [n; d]) ts ->
  cat ts = Some (mkTensor [list_sum (map (@batch_size A) ts); d]
                          (concat (map (@data A) ts))).
Proof.
  intros Hne F.
  assert (Z0 : existsb (@is_zero_dim A) ts = false).
  { clear - F. induction F as [|t ts [n Ht] _ IH]; simpl; [reflexivity|].
    unfold is_zero_dim at 1. now rewrite Ht, IH. }
  assert (Fl : filter (fun t => negb (cat_should_skip t)) ts = ts).
  { clear - F. induction F as [|t ts [n Ht] _ IH]; simpl; [reflexivity|].
    unfold cat_should_skip at 1. rewrite Ht, IH. now destruct n. }
  assert (Tl : forallb (fun t => list_nat_eqb (tl (shape t)) [d]) ts = true).
  { clear - F. induction F as [|t ts [n Ht] _ IH]; cbn [forallb];
      [reflexivity|].
    rewrite Ht, IH. cbn [tl]. now rewrite list_nat_eqb_refl. }
  unfold cat. destruct ts as [|t0 rest]; [congruence|].
  rewrite Z0, Fl. inversion F as [|? ? [n0 H0] _]; subst.
  rewrite H0. cbn [tl]. simpl forallb in Tl.
  apply andb_true_iff in Tl as [_ Tl]. now rewrite Tl.
Qed.

Lemma samples_cat_rows ts :
  Forall (fun t => (exists n, shape t = [n; d]) /\ wf t) ts ->
  samples (mkTensor [list_sum (map (@batch_size A) ts); d]
                    (concat (map (@data A) ts)))
  = flat_map (@samples A) ts.
Proof.
  intros F. unfold samples at 1, unbind. cbn [shape data].
  induction F as [|t ts [[n Hs] Hw] _ IH]; [reflexivity|].
  cbn [map list_sum fold_right concat flat_map].
  fold (list_sum (map (@batch_size A) ts)).
  unfold wf in Hw. rewrite Hs in Hw. cbn [numel fold_right] in Hw.
  rewrite chunks_add.
  - rewrite map_app, IH. f_equal.
    unfold samples, unbind, batch_size. now rewrite Hs.
  - unfold batch_size. rewrite Hs. cbn [hd numel fold_right]. lia.
Qed.

Lemma wf_cat_rows ts :
  Forall (fun t => (exists n, shape t = [n; d]) /\ wf t) ts ->
  wf (mkTensor [list_sum (map (@batch_size A) ts); d]
               (concat (map (@data A) ts))).
Proof.
  unfold wf. cbn [shape data numel fold_right].
  induction 1 as [|t ts [[n Hs] Hw] _ IH]; [reflexivity|].
  cbn [map concat list_sum fold_right].
  fold (list_sum (map (@batch_size A) ts)).
  rewrite length_app, IH. unfold wf in Hw. rewrite Hw, Hs.
  unfold batch_size. rewrite Hs. cbn [hd numel fold_right]. lia.
Qed.

End RaggedCat.

Lemma Forall2_batch_sizes {A} (dl outs : list (tensor A)) :
  Forall2 (fun b o => batch_size o = batch_size b) dl outs ->
  list_sum (map (@batch_size A) outs) = list_sum (map (@batch_size A) dl).
Proof.
  induction 1 as [|b o dl outs H _ IH]; [reflexivity|].
  cbn [map list_sum fold_right].
  fold (list_sum (map (@batch_size A) outs)).
  fold (list_sum (map (@batch_size A) dl)). now rewrite H, IH.
Qed.

(** Batches need not have the same size (the last batch of a loader is
    often shorter).  For a non-empty loader whose batches have a batch
    dimension, and an encoder that maps [n] samples to outputs of shape
    [[n; d]], the call returns; [mus] and [logvars] are well formed, of the
    same shape, with one row per sample of the dataset, and their rows are
    the rows of the per-batch outputs in loader order. *)
Theorem generate_latent_any_batch_sizes
  (A W : Type)
  (encoder : Model W -> tensor A -> Model W * (tensor A * tensor A))
  (model : Model W) (dataloader : list (tensor A)) (d : nat) :
  dataloader <> [] ->
  Forall (fun b => shape b <> []) dataloader ->
  (forall m b n s,
      shape b = n :: s ->
      (shape (fst (snd (encoder m b))) = [n; d] /\ wf (fst (snd (encoder m b))))
      /\ (shape (snd (snd (encoder m b))) = [n; d]
          /\ wf (snd (snd (encoder m b))))) ->
  let outputs := snd (encode_loop encoder (eval model) dataloader [] []) in
  let total := list_sum (map (@batch_size A) dataloader) in
  exists mus logvars,
    snd (generate_latent encoder model dataloader) = Some (mus, logvars)
    /\ shape mus = [total; d] /\ shape logvars = [total; d]
    /\ wf mus /\ wf logvars
    /\ length (samples mus) = total /\ length (samples logvars) = total
    /\ samples mus = flat_map (@samples A) (fst outputs)
    /\ samples logvars = flat_map (@samples A) (snd outputs).
Proof.
  intros Hne Hb He outputs total.
  destruct (encode_loop_outputs encoder (eval model) dataloader) as [O1 O2].
  fold outputs in O1, O2.
  assert (G1 : Forall2 (fun b o => ((exists n, shape o = [n; d]) /\ wf o)
                                   /\ batch_size o = batch_size b)
                       dataloader (fst outputs)).
  { clear - O1 Hb He. induction O1 as [|b o dl outs [m ->] _ IH];
      constructor.
    - apply Forall_inv in Hb.
      destruct (shape b) as [|n s] eqn:Sb; [congruence|].
      destruct (He m b n s Sb) as [[E1 E2] _].
      unfold batch_size. rewrite E1, Sb. eauto.
    - apply IH. now apply Forall_inv_tail in Hb. }
  assert (G2 : Forall2 (fun b o => ((exists n, shape o = [n; d]) /\ wf o)
                                   /\ batch_size o = batch_size b)
                       dataloader (snd outputs)).
  { clear - O2 Hb He. induction O2 as [|b o dl outs [m ->] _ IH];
      constructor.
    - apply Forall_inv in Hb.
      destruct (shape b) as [|n s] eqn:Sb; [congruence|].
      destruct (He m b n s Sb) as [_ [E1 E2]].
      unfold batch_size. rewrite E1, Sb. eauto.
    - apply IH. now apply Forall_inv_tail in Hb. }
  assert (F1 : Forall (fun t => (exists n, shape t = [n; d]) /\ wf t)
                      (fst outputs)).
  { eapply Forall2_Forall_r with (P := fun _ => True); [|exact G1|].
    - intros a b _ [H _]. exact H.
    - apply Forall_forall. auto. }
  assert (F2 : Forall (fun t => (exists n, shape t = [n; d]) /\ wf t)
                      (snd outputs)).
  { eapply Forall2_Forall_r with (P := fun _ => True); [|exact G2|].
    - intros a b _ [H _]. exact H.
    - apply Forall_forall. auto. }
  assert (T1 : list_sum (map (@batch_size A) (fst outputs)) = total).
  { apply Forall2_batch_sizes. eapply Forall2_impl; [|exact G1].
    now intros a b [_ H]. }
  assert (T2 : list_sum (map (@batch_size A) (snd outputs)) = total).
  { apply Forall2_batch_sizes. eapply Forall2_impl; [|exact G2].
    now intros a b [_ H]. }
  assert (N1 : fst outputs <> []).
  { intros E. rewrite E in O1. inversion O1; subst. congruence. }
  assert (N2 : snd outputs <> []).
  { intros E. rewrite E in O2. inversion O2; subst. congruence. }
  exists (mkTensor [list_sum (map (@batch_size A) (fst outputs)); d]
                   (concat (map (@data A) (fst outputs)))),
         (mkTensor [list_sum (map (@batch_size A) (snd outputs)); d]
                   (concat (map (@data A) (snd outputs)))).
  split; [|repeat split].
  - rewrite generate_latent_result. fold outputs.
    rewrite (@cat_rows A d (fst outputs) N1), (@cat_rows A d (snd outputs) N2);
      [reflexivity| |]; (eapply Forall_impl; [|eassumption]);
      now intros t [? _].
  - cbn [shape]. now rewrite T1.
  - cbn [shape]. now rewrite T2.
  - now apply wf_cat_rows.
  - now apply wf_cat_rows.
  - rewrite <- T1. now apply samples_length with (s := [d]).
  - rewrite <- T2. now apply samples_length with (s := [d]).
  - now apply samples_cat_rows.
  - now apply samples_cat_rows.
Qed.

Lemma generate_latent_any_batch_sizes_witness :
  let dataloader := [mkTensor [2; 1] [3; 3]%Z; mkTensor [1; 1] [5]%Z] in
  let outputs :=
    snd (encode_loop Toy.encoder (eval Toy.model) dataloader [] []) in
  let total := list_sum (map (@batch_size Z) dataloader) in
  exists mus logvars,
    snd (generate_latent Toy.encoder Toy.model dataloader) = Some (mus, logvars)
    /\ shape mus = [total; 1] /\ shape logvars = [total; 1]
    /\ wf mus /\ wf logvars
    /\ length (samples mus) = total /\ length (samples logvars) = total
    /\ samples mus = flat_map (@samples Z) (fst outputs)
    /\ samples logvars = flat_map (@samples Z) (snd outputs).
Proof.
  apply (@generate_latent_any_batch_sizes Z unit Toy.encoder Toy.model
           [mkTensor [2; 1] [3; 3]%Z; mkTensor [1; 1] [5]%Z] 1).
  - discriminate.
  - repeat constructor; discriminate.
  - apply toy_encoder_shapes.
Defined.

(** ** More on the ranking *)

Lemma NoDup_app_disjoint {X} (l1 l2 : list X) (x : X) :
  NoDup (l1 ++ l2) -> In x l1 -> ~ In x l2.
Proof.
  induction l1 as [|a l1 IH]; intros N H1 H2; [exact H1|].
  simpl in N. inversion N as [|? ? Ha Nr]; subst.
  destruct H1 as [->|H1].
  - apply Ha, in_or_app. now right.
  - now apply IH.
Qed.

Lemma StronglySorted_app_order {X} (R : X -> X -> Prop) (l1 l2 : list X) :
  StronglySorted R (l1 ++ l2) ->
  forall x y, In x l1 -> In y l2 -> R x y.
Proof.
  induction l1 as [|a l1 IH]; intros S x y H1 H2; [destruct H1|].
  simpl in S. inversion S as [|? ? Sr Fa]; subst.
  destruct H1 as [->|H1].
  - rewrite Forall_forall in Fa. apply Fa, in_or_app. now right.
  - now apply IH.
Qed.

Section RankingLemmas.
Variable A : Type.
Variable leb : A -> A -> bool.
Hypothesis leb_total : forall a b, leb a b = true \/ leb b a = true.
Hypothesis leb_trans :
  forall a b c, leb a b = true -> leb b c = true -> leb a c = true.
Variable argsort : list A -> list nat.
Hypothesis argsort_ok : argsort_contract leb argsort.

Lemma argsort_strongly_sorted (l : list A) :
  StronglySorted (key_le leb l) (argsort l).
Proof.
  destruct (argsort_ok l) as [_ S].
  apply Sorted_StronglySorted; [|exact S].
  intros i j k. now apply key_le_trans.
Qed.

Lemma argsort_NoDup (l : list A) : NoDup (argsort l).
Proof.
  destruct (argsort_ok l) as [P _].
  apply (Permutation_NoDup (Permutation_sym P)), seq_NoDup.
Qed.

Lemma argsort_complete (l : list A) (j : nat) (a : A) :
  nth_error l j = Some a -> In j (argsort l).
Proof.
  intros H. destruct (argsort_ok l) as [P _].
  apply (Permutation_in _ (Permutation_sym P)), in_seq.
  assert (j < length l) by (apply nth_error_Some; congruence). lia.
Qed.

Lemma key_le_refl (l : list A) (j : nat) (a : A) :
  nth_error l j = Some a -> key_le leb l j j.
Proof.
  intros H. unfold key_le. rewrite H. now destruct (leb_total a a).
Qed.

End RankingLemmas.

(** The first index of the best five points at a smallest loss and the last
    index of the worst five at a largest loss, for every non-empty loss
    list and every argsort within the contract. *)
Theorem rank_losses_extremes
  (A : Type) (leb : A -> A -> bool) (argsort : list A -> list nat)
  (reconstruction_losses : list A) :
  (forall a b, leb a b = true \/ leb b a = true) ->
  (forall a b c, leb a b = true -> leb b c = true -> leb a c = true) ->
  argsort_contract leb argsort ->
  reconstruction_losses <> [] ->
  exists b w rest_b rest_w,
    fst (rank_losses argsort reconstruction_losses) = b :: rest_b
    /\ snd (rank_losses argsort reconstruction_losses) = rest_w ++ [w]
    /\ forall j a,
        nth_error reconstruction_losses j = Some a ->
        key_le leb reconstruction_losses b j
        /\ key_le leb reconstruction_losses j w.
Proof.
  intros Ht Hr H Hne. set (l := reconstruction_losses) in *.
  pose proof (argsort_length H l) as L.
  pose proof (argsort_strongly_sorted Hr H l) as Srt.
  assert (N : length l <> 0) by (destruct l; [congruence|discriminate]).
  destruct (argsort l) as [|b rest] eqn:E; [simpl in L; lia|].
  destruct (@exists_last _ (b :: rest)) as (pre & w & Ew); [discriminate|].
  exists b, w, (firstn 4 rest), (skipn (length l - 5) pre).
  rewrite rank_losses_eq, E. cbn [fst snd]. split; [reflexivity|]. split.
  - rewrite Ew, skipn_app.
    assert (Lp : length (b :: rest) = S (length pre))
      by (rewrite Ew, length_app; simpl; lia).
    rewrite length_app. cbn [length].
    replace (length pre + 1 - 5 - length pre) with 0 by lia.
    f_equal. f_equal. rewrite L in Lp. lia.
  - intros j a Hj.
    assert (Ij : In j (b :: rest))
      by (rewrite <- E; eapply argsort_complete; eassumption).
    split.
    + destruct Ij as [<-|Ij]; [eapply key_le_refl; eassumption|].
      inversion Srt as [|? ? _ Fb]; subst.
      rewrite Forall_forall in Fb. now apply Fb.
    + rewrite Ew in Ij, Srt. apply in_app_or in Ij as [Ij|[<-|[]]].
      * apply (StronglySorted_app_order _ _ Srt); [assumption|now left].
      * eapply key_le_refl; eassumption.
Qed.

Lemma Zleb_trans (a b c : Z) :
  Z.leb a b = true -> Z.leb b c = true -> Z.leb a c = true.
Proof. rewrite !Z.leb_le. lia. Qed.

Lemma rank_losses_extremes_witness :
  exists b w rest_b rest_w,
    fst (rank_losses (stable_argsort Z.leb) [7; 2; 9]%Z) = b :: rest_b
    /\ snd (rank_losses (stable_argsort Z.leb) [7; 2; 9]%Z) = rest_w ++ [w]
    /\ forall j a,
        nth_error [7; 2; 9]%Z j = Some a ->
        key_le Z.leb [7; 2; 9]%Z b j /\ key_le Z.leb [7; 2; 9]%Z j w.
Proof.
  apply (@rank_losses_extremes Z Z.leb (stable_argsort Z.leb) [7; 2; 9]%Z).
  - apply Zleb_total.
  - apply Zleb_trans.
  - apply stable_argsort_contract, Zleb_total.
  - discriminate.
Defined.

(** With ten losses or more the best five and the worst five are five
    indices each, no index is in both, and no best loss exceeds a worst
    loss. *)
Theorem rank_losses_ten_or_more
  (A : Type) (leb : A -> A -> bool) (argsort : list A -> list nat)
  (reconstruction_losses : list A) :
  (forall a b c, leb a b = true -> leb b c = true -> leb a c = true) ->
  argsort_contract leb argsort ->
  10 <= length reconstruction_losses ->
  let best_5_indices := fst (rank_losses argsort reconstruction_losses) in
  let worst_5_indices := snd (rank_losses argsort reconstruction_losses) in
  length best_5_indices = 5 /\ length worst_5_indices = 5
  /\ (forall i, In i best_5_indices -> ~ In i worst_5_indices)
  /\ (forall i j, In i best_5_indices -> In j worst_5_indices ->
                  key_le leb reconstruction_losses i j).
Proof.
  intros Hr H HN best worst. subst best worst.
  set (l := reconstruction_losses) in *.
  pose proof (argsort_length H l) as L.
  pose proof (argsort_strongly_sorted Hr H l) as S.
  pose proof (argsort_NoDup H l) as N.
  rewrite rank_losses_eq. cbn [fst snd]. rewrite L.
  replace (length l - 5) with ((length l - 10) + 5) by lia.
  rewrite <- skipn_skipn.
  rewrite <- (firstn_skipn 5 (argsort l)) in S, N.
  repeat split.
  - rewrite length_firstn. lia.
  - rewrite !length_skipn. lia.
  - intros i H1 H2. apply In_skipn in H2.
    exact (NoDup_app_disjoint _ _ _ N H1 H2).
  - intros i j H1 H2. apply In_skipn in H2.
    exact (StronglySorted_app_order _ _ S i j H1 H2).
Qed.

Lemma rank_losses_ten_or_more_witness :
  let l := [9; 8; 7; 6; 5; 4; 3; 2; 1; 0]%Z in
  let best_5_indices := fst (rank_losses (stable_argsort Z.leb) l) in
  let worst_5_indices := snd (rank_losses (stable_argsort Z.leb) l) in
  length best_5_indices = 5 /\ length worst_5_indices = 5
  /\ (forall i, In i best_5_indices -> ~ In i worst_5_indices)
  /\ (forall i j, In i best_5_indices -> In j worst_5_indices ->
                  key_le Z.leb l i j).
Proof.
  apply (@rank_losses_ten_or_more Z Z.leb (stable_argsort Z.leb)
           [9; 8; 7; 6; 5; 4; 3; 2; 1; 0]%Z).
  - apply Zleb_trans.
  - apply stable_argsort_contract, Zleb_total.
  - simpl. lia.
Defined.

(** With at most five losses both lists are the whole sorted index list:
    the best and the worst are the same samples. *)
Theorem rank_losses_at_most_five
  (A : Type) (leb : A -> A -> bool) (argsort : list A -> list nat)
  (reconstruction_losses : list A) :
  argsort_contract leb argsort ->
  length reconstruction_losses <= 5 ->
  fst (rank_losses argsort reconstruction_losses)
  = argsort reconstruction_losses
  /\ snd (rank_losses argsort reconstruction_losses)
     = argsort reconstruction_losses.
Proof.
  intros H HN. pose proof (argsort_length H reconstruction_losses) as L.
  rewrite rank_losses_eq. cbn [fst snd]. split.
  - apply firstn_all2. lia.
  - replace (length (argsort reconstruction_losses) - 5) with 0 by lia.
    reflexivity.
Qed.

Lemma rank_losses_at_most_five_witness :
  fst (rank_losses (stable_argsort Z.leb) [7; 2; 9]%Z)
  = stable_argsort Z.leb [7; 2; 9]%Z
  /\ snd (rank_losses (stable_argsort Z.leb) [7; 2; 9]%Z)
     = stable_argsort Z.leb [7; 2; 9]%Z.
Proof.
  apply (@rank_losses_at_most_five Z Z.leb (stable_argsort Z.leb) [7; 2; 9]%Z).
  - apply stable_argsort_contract, Zleb_total.
  - simpl. lia.
Defined.

(** ** More on [calculate_losses] *)

Section FlattenLemmas.
Variable A : Type.
Implicit Types (bs : list (tensor A)).

Lemma unbind_samples (b : tensor A) (imgs : list (tensor A)) :
  unbind b = Some imgs -> shape b <> [] /\ imgs = samples b.
Proof.
  unfold samples. intros H. rewrite H. split; [|reflexivity].
  unfold unbind in H. destruct (shape b); [discriminate|discriminate].
Qed.

Lemma unbind_defined (b : tensor A) :
  shape b <> [] -> unbind b = Some (samples b).
Proof.
  unfold samples, unbind. destruct (shape b); [congruence|reflexivity].
Qed.

Lemma flatten_some bs (o : list (tensor A)) :
  flatten bs = Some o <->
  Forall (fun b => shape b <> []) bs /\ o = flat_map (@samples A) bs.
Proof.
  revert o; induction bs as [|b bs IH]; intros o; simpl.
  - split.
    + intros [= <-]. split; [constructor|reflexivity].
    + intros [_ ->]. reflexivity.
  - split.
    + destruct (unbind b) as [imgs|] eqn:U; [|discriminate]. cbn [bind].
      destruct (flatten bs) as [more|] eqn:F; [|discriminate]. cbn [bind].
      intros [= <-]. apply unbind_samples in U as [Hs ->].
      destruct (proj1 (IH more) eq_refl) as [Hf ->].
      split; [constructor; assumption|reflexivity].
    + intros [Hf ->]. inversion Hf as [|? ? Hb Hbs]; subst.
      rewrite (unbind_defined b Hb). cbn [bind].
      rewrite (proj2 (IH (flat_map (@samples A) bs))) by (split; auto).
      reflexivity.
Qed.

Lemma length_flat_map_samples bs :
  Forall (fun b => shape b <> []) bs ->
  length (flat_map (@samples A) bs) = list_sum (map (@batch_size A) bs).
Proof.
  induction 1 as [|b bs Hb _ IH]; [reflexivity|].
  cbn [flat_map map list_sum fold_right].
  fold (list_sum (map (@batch_size A) bs)).
  rewrite length_app, IH. f_equal.
  destruct (shape b) as [|n s] eqn:E; [congruence|].
  rewrite (samples_length b E). unfold batch_size. now rewrite E.
Qed.

Lemma list_sum_ge_length bs :
  Forall (fun b => 1 <= batch_size b) bs ->
  length bs <= list_sum (map (@batch_size A) bs).
Proof.
  induction 1 as [|b bs Hb _ IH]; [reflexivity|].
  cbn [map list_sum fold_right length].
  fold (list_sum (map (@batch_size A) bs)). lia.
Qed.

End FlattenLemmas.

Section LossLoopLemmas.
Variables A W : Type.
Variable forward
  : Model W -> tensor A -> Model W * (tensor A * tensor A * tensor A).
Variable loss_function
  : tensor A -> tensor A -> tensor A -> tensor A -> option (tensor A).
Variable argsort : list A -> list nat.

Implicit Types (m : Model W) (dl : list (tensor A)).

Lemma loss_loop_trace m dl ls os rs m' ls' os' rs' :
  loss_loop forward loss_function m dl ls os rs = (m', Some (ls', os', rs')) ->
  exists new_ls new_rs,
    ls' = ls ++ new_ls /\ os' = os ++ dl /\ rs' = rs ++ new_rs
    /\ Forall2 (loss_computed forward loss_function) dl new_ls
    /\ Forall2 (reconstruction_of forward) dl new_rs.
Proof.
  revert m ls os rs; induction dl as [|b dl IH]; intros m ls os rs; simpl.
  - intros [= <- <- <- <-]. exists [], []. rewrite !app_nil_r.
    repeat split; constructor.
  - destruct (forward m b) as [m1 [[recon mu] lv]] eqn:F.
    destruct (loss_function recon b mu lv) as [t|] eqn:Lf; [|discriminate].
    cbn [bind]. destruct (item t) as [l|] eqn:It; [|discriminate].
    intros H. apply IH in H as (nl & nr & -> & -> & -> & F1 & F2).
    exists (l :: nl), (recon :: nr). rewrite <- !app_assoc. simpl.
    repeat split; constructor; auto.
    + exists m, t. rewrite F. cbn [fst snd]. auto.
    + exists m. rewrite F. reflexivity.
Qed.

Lemma loss_loop_succeeds m dl ls os rs :
  (forall m0 b, In b dl ->
     exists l,
       bind (loss_function (fst (fst (snd (forward m0 b)))) b
                           (snd (fst (snd (forward m0 b))))
                           (snd (snd (forward m0 b)))) (@item A) = Some l) ->
  exists res, snd (loss_loop forward loss_function m dl ls os rs) = Some res.
Proof.
  revert m ls os rs; induction dl as [|b dl IH]; intros m ls os rs H; simpl.
  - eauto.
  - destruct (H m b (or_introl eq_refl)) as [l Hl].
    destruct (forward m b) as [m1 [[recon mu] lv]]. cbn [fst snd] in Hl.
    rewrite Hl. apply IH. intros m0 b0 Hin. apply H. now right.
Qed.

Lemma calculate_losses_inv m dl best worst o r :
  snd (calculate_losses forward loss_function argsort m dl)
  = Some (best, worst, o, r) ->
  exists ls rs,
    snd (loss_loop forward loss_function (eval m) dl [] [] [])
    = Some (ls, dl, rs)
    /\ Forall2 (loss_computed forward loss_function) dl ls
    /\ Forall2 (reconstruction_of forward) dl rs
    /\ best = fst (rank_losses argsort ls)
    /\ worst = snd (rank_losses argsort ls)
    /\ flatten dl = Some o /\ flatten rs = Some r.
Proof.
  unfold calculate_losses.
  destruct (loss_loop forward loss_function (eval m) dl [] [] [])
    as [m1 [[[ls os] rs]|]] eqn:E; [|discriminate].
  apply loss_loop_trace in E as (nl & nr & -> & -> & -> & F1 & F2).
  cbn [app snd].
  destruct (rank_losses argsort nl) as [b w] eqn:Rk.
  destruct (flatten dl) as [o'|] eqn:Fo; [|discriminate]. cbn [bind].
  destruct (flatten nr) as [r'|] eqn:Fr; [|discriminate]. cbn [bind].
  intros [= <- <- <- <-]. exists nl, nr. rewrite Rk.
  repeat split; auto.
Qed.

End LossLoopLemmas.

Lemma calculate_losses_result_facts
  (A W : Type) (leb : A -> A -> bool)
  (forward : Model W -> tensor A -> Model W * (tensor A * tensor A * tensor A))
  (loss_function
    : tensor A -> tensor A -> tensor A -> tensor A -> option (tensor A))
  (argsort : list A -> list nat) (model : Model W)
  (test_loader : list (tensor A))
  (best worst : list nat) (originals reconstructions : list (tensor A)) :
  argsort_contract leb argsort ->
  snd (calculate_losses forward loss_function argsort model test_loader)
  = Some (best, worst, originals, reconstructions) ->
  length best = Nat.min 5 (length test_loader)
  /\ length worst = Nat.min 5 (length test_loader)
  /\ Forall (fun i => i < length test_loader) best
  /\ Forall (fun i => i < length test_loader) worst
  /\ originals = flat_map (@samples A) test_loader
  /\ length originals = list_sum (map (@batch_size A) test_loader).
Proof.
  intros H R.
  apply calculate_losses_inv in R
    as (ls & rs & _ & F1 & _ & -> & -> & Fo & _).
  apply flatten_some in Fo as [Hs ->].
  pose proof (Forall2_length F1) as L.
  pose proof (argsort_length H ls) as La.
  rewrite rank_losses_eq. cbn [fst snd].
  rewrite length_firstn, length_skipn, La, L.
  repeat split; try lia.
  - apply Forall_forall. intros i Hi. apply In_firstn in Hi.
    now apply (argsort_in_range H).
  - apply Forall_forall. intros i Hi. apply In_skipn in Hi.
    now apply (argsort_in_range H).
  - now apply length_flat_map_samples.
Qed.

(** When [calculate_losses] returns, there are as many ranked losses as
    batches (not as samples): each index list has [min 5 B] entries, all
    below the number [B] of batches, while the originals are the samples of
    all batches in loader order, one per sample of the dataset. *)
Theorem calculate_losses_counts
  (A W : Type) (leb : A -> A -> bool)
  (forward : Model W -> tensor A -> Model W * (tensor A * tensor A * tensor A))
  (loss_function
    : tensor A -> tensor A -> tensor A -> tensor A -> option (tensor A))
  (argsort : list A -> list nat) (model : Model W)
  (test_loader : list (tensor A))
  (best worst : list nat) (originals reconstructions : list (tensor A)) :
  argsort_contract leb argsort ->
  snd (calculate_losses forward loss_function argsort model test_loader)
  = Some (best, worst, originals, reconstructions) ->
  length best = Nat.min 5 (length test_loader)
  /\ length worst = Nat.min 5 (length test_loader)
  /\ Forall (fun i => i < length test_loader) best
  /\ Forall (fun i => i < length test_loader) worst
  /\ originals = flat_map (@samples A) test_loader
  /\ length originals = list_sum (map (@batch_size A) test_loader).
Proof. apply calculate_losses_result_facts. Qed.

Lemma calculate_losses_counts_witness :
  length [1; 0] = Nat.min 5 (length Toy.loader)
  /\ length [1; 0] = Nat.min 5 (length Toy.loader)
  /\ Forall (fun i => i < length Toy.loader) [1; 0]
  /\ Forall (fun i => i < length Toy.loader) [1; 0]
  /\ [mkTensor [1] [3]%Z; mkTensor [1] [3]%Z;
      mkTensor [1] [0]%Z; mkTensor [1] [1]%Z]
     = flat_map (@samples Z) Toy.loader
  /\ length [mkTensor [1] [3]%Z; mkTensor [1] [3]%Z;
             mkTensor [1] [0]%Z; mkTensor [1] [1]%Z]
     = list_sum (map (@batch_size Z) Toy.loader).
Proof.
  apply (@calculate_losses_counts Z unit Z.leb Toy.forward Toy.loss_function
           (stable_argsort Z.leb) Toy.model Toy.loader [1; 0] [1; 0]
           [mkTensor [1] [3]%Z; mkTensor [1] [3]%Z;
            mkTensor [1] [0]%Z; mkTensor [1] [1]%Z]
           [mkTensor [1] [0]%Z; mkTensor [1] [0]%Z;
            mkTensor [1] [0]%Z; mkTensor [1] [0]%Z]).
  - apply stable_argsort_contract, Zleb_total.
  - vm_compute. reflexivity.
Defined.

(** [calculate_losses] returns a result only if, on every batch, the loss
    function returned a tensor of exactly one element, and every batch and
    every reconstruction has a dimension to iterate over: one failing batch
    fails the whole call. *)
Theorem calculate_losses_needs_every_batch
  (A W : Type)
  (forward : Model W -> tensor A -> Model W * (tensor A * tensor A * tensor A))
  (loss_function
    : tensor A -> tensor A -> tensor A -> tensor A -> option (tensor A))
  (argsort : list A -> list nat) (model : Model W)
  (test_loader : list (tensor A))
  (best worst : list nat) (originals reconstructions : list (tensor A)) :
  snd (calculate_losses forward loss_function argsort model test_loader)
  = Some (best, worst, originals, reconstructions) ->
  Forall (fun b => exists l, loss_computed forward loss_function b l)
         test_loader
  /\ Forall (fun b => shape b <> []) test_loader
  /\ exists rs,
      Forall2 (reconstruction_of forward) test_loader rs
      /\ Forall (fun r => shape r <> []) rs
      /\ reconstructions = flat_map (@samples A) rs.
Proof.
  intros R.
  apply calculate_losses_inv in R
    as (ls & rs & _ & F1 & F2 & _ & _ & Fo & Fr).
  apply flatten_some in Fo as [Hs _]. apply flatten_some in Fr as [Hr ->].
  split; [|split; [exact Hs|]].
  - clear - F1. induction F1; constructor; eauto.
  - exists rs. auto.
Qed.

Lemma calculate_losses_needs_every_batch_witness :
  Forall (fun b => exists l, loss_computed Toy.forward Toy.loss_function b l)
         Toy.loader
  /\ Forall (fun b => shape b <> []) Toy.loader
  /\ exists rs,
      Forall2 (reconstruction_of Toy.forward) Toy.loader rs
      /\ Forall (fun r => shape r <> []) rs
      /\ [mkTensor [1] [0]%Z; mkTensor [1] [0]%Z;
          mkTensor [1] [0]%Z; mkTensor [1] [0]%Z]
         = flat_map (@samples Z) rs.
Proof.
  apply (@calculate_losses_needs_every_batch Z unit Toy.forward
           Toy.loss_function (stable_argsort Z.leb) Toy.model Toy.loader
           [1; 0] [1; 0]
           [mkTensor [1] [3]%Z; mkTensor [1] [3]%Z;
            mkTensor [1] [0]%Z; mkTensor [1] [1]%Z]).
  vm_compute. reflexivity.
Defined.

(** If every batch holds at least one sample and the model's reconstruction
    has the shape of its input, every index that [calculate_losses] returns
    is a valid position in both returned lists, so that the lookups
    [originals[idx]] and [reconstructions[idx]] of [plot_reconstructions]
    are defined. *)
Theorem calculate_losses_indices_in_bounds
  (A W : Type) (leb : A -> A -> bool)
  (forward : Model W -> tensor A -> Model W * (tensor A * tensor A * tensor A))
  (loss_function
    : tensor A -> tensor A -> tensor A -> tensor A -> option (tensor A))
  (argsort : list A -> list nat) (model : Model W)
  (test_loader : list (tensor A))
  (best worst : list nat) (originals reconstructions : list (tensor A)) :
  argsort_contract leb argsort ->
  Forall (fun b => 1 <= batch_size b) test_loader ->
  (forall m b, shape (fst (fst (snd (forward m b)))) = shape b) ->
  snd (calculate_losses forward loss_function argsort model test_loader)
  = Some (best, worst, originals, reconstructions) ->
  length reconstructions = length originals
  /\ Forall (fun i => i < length originals) best
  /\ Forall (fun i => i < length originals) worst.
Proof.
  intros H Hb Hf R.
  destruct (calculate_losses_result_facts _ _ _ _ H R)
    as (_ & _ & B & Wo & _ & Lo).
  apply calculate_losses_inv in R
    as (ls & rs & _ & _ & F2 & _ & _ & _ & Fr).
  apply flatten_some in Fr as [Hr ->].
  pose proof (list_sum_ge_length Hb) as G.
  assert (Lr : list_sum (map (@batch_size A) rs)
               = list_sum (map (@batch_size A) test_loader)).
  { apply Forall2_batch_sizes. eapply Forall2_impl; [|exact F2].
    intros b r [m ->]. unfold batch_size. now rewrite Hf. }
  split; [|split].
  - rewrite length_flat_map_samples by assumption. congruence.
  - eapply Forall_impl; [|exact B]. simpl. intros i Hi. lia.
  - eapply Forall_impl; [|exact Wo]. simpl. intros i Hi. lia.
Qed.

Lemma toy_forward_shape (m : Model unit) (b : tensor Z) :
  shape (fst (fst (snd (Toy.forward m b)))) = shape b.
Proof.
  unfold Toy.forward, Toy.encoder. destruct (shape b) eqn:E; simpl; congruence.
Qed.

Lemma calculate_losses_indices_in_bounds_witness :
  let originals := [mkTensor [1] [3]%Z; mkTensor [1] [3]%Z;
                    mkTensor [1] [0]%Z; mkTensor [1] [1]%Z] in
  let reconstructions := [mkTensor [1] [0]%Z; mkTensor [1] [0]%Z;
                          mkTensor [1] [0]%Z; mkTensor [1] [0]%Z] in
  length reconstructions = length originals
  /\ Forall (fun i => i < length originals) [1; 0]
  /\ Forall (fun i => i < length originals) [1; 0].
Proof.
  apply (@calculate_losses_indices_in_bounds Z unit Z.leb Toy.forward
           Toy.loss_function (stable_argsort Z.leb) Toy.model Toy.loader
           [1; 0] [1; 0]).
  - apply stable_argsort_contract, Zleb_total.
  - repeat constructor.
  - apply toy_forward_shape.
  - vm_compute. reflexivity.
Defined.

Lemma samples_single {A} (b : tensor A) (s : list nat) :
  shape b = 1 :: s -> wf b -> samples b = [mkTensor s (data b)].
Proof.
  intros Hs Hw. unfold samples, unbind. rewrite Hs. cbn [chunks map].
  unfold wf in Hw. rewrite Hs in Hw. cbn [numel fold_right] in Hw.
  fold (numel s) in Hw. rewrite firstn_all2 by lia. reflexivity.
Qed.

(** With one sample per batch (batch size 1) the ranking is per sample:
    the i-th loss is the loss of the i-th batch, and the i-th original is
    that batch without its batch dimension, so the returned indices
    designate in [originals] the samples the losses were computed on. *)
Theorem calculate_losses_single_sample_batches
  (A W : Type)
  (forward : Model W -> tensor A -> Model W * (tensor A * tensor A * tensor A))
  (loss_function
    : tensor A -> tensor A -> tensor A -> tensor A -> option (tensor A))
  (argsort : list A -> list nat) (model : Model W)
  (test_loader : list (tensor A))
  (best worst : list nat) (originals reconstructions : list (tensor A)) :
  Forall (fun b => batch_size b = 1 /\ wf b) test_loader ->
  snd (calculate_losses forward loss_function argsort model test_loader)
  = Some (best, worst, originals, reconstructions) ->
  exists reconstruction_losses,
    Forall2 (loss_computed forward loss_function)
            test_loader reconstruction_losses
    /\ originals = map (fun b => mkTensor (tl (shape b)) (data b)) test_loader
    /\ length reconstruction_losses = length originals
    /\ best = fst (rank_losses argsort reconstruction_losses)
    /\ worst = snd (rank_losses argsort reconstruction_losses).
Proof.
  intros Hb R.
  apply calculate_losses_inv in R
    as (ls & rs & _ & F1 & _ & -> & -> & Fo & _).
  apply flatten_some in Fo as [_ ->].
  assert (E : flat_map (@samples A) test_loader
              = map (fun b => mkTensor (tl (shape b)) (data b)) test_loader).
  { clear - Hb. induction Hb as [|b bs [H1 Hw] _ IH]; [reflexivity|].
    cbn [flat_map map]. rewrite IH.
    unfold batch_size in H1. destruct (shape b) as [|n s] eqn:Sb;
      [discriminate|]. cbn [hd] in H1. subst n.
    rewrite (samples_single Sb Hw). reflexivity. }
  exists ls. rewrite E, length_map.
  repeat split; auto. symmetry. exact (Forall2_length F1).
Qed.

Lemma calculate_losses_single_sample_batches_witness :
  let test_loader := [mkTensor [1; 1] [3]%Z; mkTensor [1; 1] [1]%Z] in
  exists reconstruction_losses,
    Forall2 (loss_computed Toy.forward Toy.loss_function)
            test_loader reconstruction_losses
    /\ [mkTensor [1] [3]%Z; mkTensor [1] [1]%Z]
       = map (fun b => mkTensor (tl (shape b)) (data b)) test_loader
    /\ length reconstruction_losses
       = length [mkTensor [1] [3]%Z; mkTensor [1] [1]%Z]
    /\ [1; 0] = fst (rank_losses (stable_argsort Z.leb) reconstruction_losses)
    /\ [1; 0] = snd (rank_losses (stable_argsort Z.leb) reconstruction_losses).
Proof.
  apply (@calculate_losses_single_sample_batches Z unit Toy.forward
           Toy.loss_function (stable_argsort Z.leb) Toy.model
           [mkTensor [1; 1] [3]%Z; mkTensor [1; 1] [1]%Z]
           [1; 0] [1; 0] [mkTensor [1] [3]%Z; mkTensor [1] [1]%Z]
           [mkTensor [1] [0]%Z; mkTensor [1] [0]%Z]).
  - repeat constructor.
  - vm_compute. reflexivity.
Defined.

(** [calculate_losses] with [vae_loss_function] as its loss: if every batch
    has a batch dimension, the model's reconstruction has the shape of its
    input and its [mu] and [logvar] can be broadcast together, then the
    loss of every batch is defined and has one element, and the call
    returns a ranking. *)
Theorem calculate_losses_vae_returns
  (W : Type)
  (forward : Model W -> tensor R -> Model W * (tensor R * tensor R * tensor R))
  (argsort : list R -> list nat) (model : Model W)
  (test_loader : list (tensor R)) :
  Forall (fun b => shape b <> []) test_loader ->
  (forall m b,
      shape (fst (fst (snd (forward m b)))) = shape b
      /\ broadcast_shapes (shape (snd (snd (forward m b))))
                          (shape (snd (fst (snd (forward m b))))) <> None) ->
  exists best worst originals reconstructions,
    snd (calculate_losses forward vae_loss_function argsort model test_loader)
    = Some (best, worst, originals, reconstructions).
Proof.
  intros Hs Hf.
  destruct (@loss_loop_succeeds R W forward vae_loss_function (eval model)
              test_loader [] [] []) as [[[ls os] rs] E].
  { intros m b _. destruct (Hf m b) as [H1 H2].
    destruct (broadcast_shapes (shape (snd (snd (forward m b))))
                (shape (snd (fst (snd (forward m b)))))) as [s2|] eqn:B2;
      [|congruence].
    assert (B1 : broadcast_shapes (shape (fst (fst (snd (forward m b)))))
                                  (shape b) = Some (shape b))
      by (rewrite H1; apply broadcast_shapes_refl).
    destruct (vae_loss_function_some _ _ _ _ B1 B2) as [v ->].
    exists v. reflexivity. }
  destruct (loss_loop forward vae_loss_function (eval model) test_loader
              [] [] []) as [m1 res] eqn:L.
  cbn [snd] in E. subst res.
  destruct (loss_loop_trace _ _ _ _ _ _ _ L)
    as (nl & nr & -> & -> & -> & _ & F2).
  cbn [app] in *.
  assert (Hr : Forall (fun r => shape r <> []) nr).
  { clear - F2 Hs Hf. induction F2 as [|b r bs rs [m ->] _ IH];
      constructor.
    - destruct (Hf m b) as [-> _]. now apply Forall_inv in Hs.
    - apply IH. now apply Forall_inv_tail in Hs. }
  exists (fst (rank_losses argsort nl)), (snd (rank_losses argsort nl)),
    (flat_map (@samples R) test_loader), (flat_map (@samples R) nr).
  apply calculate_losses_returns with (os := test_loader) (rs := nr).
  - now rewrite L.
  - apply flatten_some. auto.
  - apply flatten_some. auto.
Qed.

Lemma calculate_losses_vae_returns_witness :
  exists best worst originals reconstructions,
    snd (calculate_losses
           (fun (m : Model unit) (b : tensor R) =>
              (m, (b, mkTensor [1] [0%R], mkTensor [1] [0%R])))
           vae_loss_function (stable_argsort Rleb) (mkModel true tt)
           [mkTensor [1; 2] [1%R; 2%R]])
    = Some (best, worst, originals, reconstructions).
Proof.
  apply (@calculate_losses_vae_returns unit
           (fun (m : Model unit) (b : tensor R) =>
              (m, (b, mkTensor [1] [0%R], mkTensor [1] [0%R])))
           (stable_argsort Rleb) (mkModel true tt)
           [mkTensor [1; 2] [1%R; 2%R]]).
  - repeat constructor; discriminate.
  - intros m b. split; [reflexivity|]. vm_compute. discriminate.
Defined.

(** ** The diagnostic report *)

Open Scope R_scope.







Close Scope R_scope.
